(** * FretSight front end: pitch mapping, hand tracking, note resolution
      and the note-trail state of the fretboard.

    The development follows the TypeScript sources:
    - [GuitarUtils]  : utils/guitarUtils (tuning table, candidate positions,
                       best position);
    - [App]          : the derived state of the App component
                       (currentCenterFret, activeNotes, currentBend);
    - [Fretboard]    : the Fretboard component (currentActivePositions, the
                       renderedNotes reconciliation, the sweep interval, the
                       per-marker bend, label and row);
    - [AudioRecorder]: the choice of container and file extension of a
                       recording.
    The state setters App hands to HandControls and Player are part of
    [App].

    Numbers: MIDI pitches, fret and string numbers and [Date.now()] readings
    are integers ([Z]); playback times and bend offsets are rationals ([Q]),
    of which the code only uses the order, the absolute value and zero. *)

From Stdlib Require Import ZArith QArith Qabs Lia List Sorted.
From Stdlib Require String.
From stdpp Require Import gmap list fin_maps.
Import ListNotations.

Local Open Scope Z_scope.

(* ===================================================================== *)
(** ** utils/guitarUtils *)
(* ===================================================================== *)

Module GuitarUtils.

Definition NUM_STRINGS : Z := 6.
Definition MAX_FRET : Z := 22.

(** Open-string MIDI numbers, index 0 = low E. *)
Definition TUNING : list Z := [40; 45; 50; 55; 59; 64].

Record Note := { string : Z; fret : Z; pitch : Z }.

(** The body of [TUNING.forEach((openPitch, stringIdx) => ...)]: the
    strings are visited in index order and a position is pushed for each
    string on which the fret falls in [0, MAX_FRET]. *)
Fixpoint forEachString (pitch : Z) (stringIdx : Z) (tuning : list Z) : list Note :=
  match tuning with
  | [] => []
  | openPitch :: rest =>
      let fret := pitch - openPitch in
      if (0 <=? fret) && (fret <=? MAX_FRET)
      then {| string := stringIdx; fret := fret; pitch := pitch |}
             :: forEachString pitch (stringIdx + 1) rest
      else forEachString pitch (stringIdx + 1) rest
  end.

Definition getPossiblePositions (pitch : Z) : list Note :=
  forEachString pitch 0 TUNING.

(** The callback of [positions.reduce]. *)
Definition closer (centerFret : Z) (prev curr : Note) : Note :=
  let prevDist := Z.abs (fret prev - centerFret) in
  let currDist := Z.abs (fret curr - centerFret) in
  if currDist <? prevDist then curr else prev.

(** [reduce] without an initial value starts from the first element. *)
Definition getBestPosition (pitch centerFret : Z) : option Note :=
  match getPossiblePositions pitch with
  | [] => None
  | first :: rest => Some (fold_left (closer centerFret) rest first)
  end.

(** Distance of a position to the reference fret. *)
Definition dist (centerFret : Z) (n : Note) : Z := Z.abs (fret n - centerFret).

(** Pitch [p] can be played on string [i]: the fret it needs there is on
    the board. *)
Definition playableOn (p : Z) (i : nat) : Prop :=
  exists openPitch, TUNING !! i = Some openPitch /\ 0 <= p - openPitch <= 22.

Definition reachable (p : Z) : Prop := exists i, playableOn p i.

(** *** Note names *)

Import String.StringSyntax.
Local Open Scope string_scope.

Definition NOTE_NAMES : list String.string :=
  ["C"; "C#"; "D"; "D#"; "E"; "F"; "F#"; "G"; "G#"; "A"; "A#"; "B"].

(** [NOTE_NAMES[pitch % 12]]: the remainder takes the sign of [pitch], and
    an index below zero reads [undefined]. *)
Definition getNoteName (pitch : Z) : option String.string :=
  let index := Z.rem pitch 12 in
  if 0 <=? index then NOTE_NAMES !! Z.to_nat index else None.

End GuitarUtils.

(* ===================================================================== *)
(** ** App: derived state of the top-level component *)
(* ===================================================================== *)

Module App.

(** JavaScript [a < b] on numbers that are rationals here. *)
Definition Qltb (a b : Q) : bool := (Qnum a * QDen b <? Qnum b * QDen a)%Z.

Record Note := {
  start : Q;
  end_ : Q;
  pitch : Z;
  velocity : Q;
  bend_value : option Q;
  string : option Z;
  fret : option Z;
  is_vibrato : option bool;
  vibrato_depth : option Q
}.

Record HandPosition := { time : Q; center_fret : Z }.

(** The element type of [pitch_bends]: [{ time: number; pitch: number }]. *)
Record BendSample := { bend_time : Q; bend_pitch : Q }.

Record AnalysisResult := {
  duration : Q;
  notes : list Note;
  hand_positions : list HandPosition;
  pitch_bends : option (list BendSample)
}.

(** [xs.length > 0 ? xs[xs.length - 1] : undefined] *)
Definition lastOrUndefined {A : Type} (xs : list A) : option A :=
  if (0 <? length xs)%nat then xs !! (length xs - 1)%nat else None.

Definition isUndefined {A : Type} (x : option A) : bool :=
  match x with None => true | Some _ => false end.

(** [currentCenterFret]; [result = None] is the state before any payload
    has been loaded. *)
Definition currentCenterFret (result : option AnalysisResult) (currentTime : Q)
    (isAutoHand : bool) (manualCenterFret : Z) : Z :=
  match result with
  | None => 2
  | Some result =>
      if isAutoHand then
        let relevant :=
          List.filter (fun p => Qle_bool (time p) currentTime) (hand_positions result) in
        match lastOrUndefined relevant with
        | Some pos => center_fret pos
        | None => 0
        end
      else manualCenterFret
  end.

(** The predicate of [result.notes.filter]. *)
Definition inTimeWindow (currentTime : Q) (n : Note) : bool :=
  Qle_bool (start n) currentTime && Qltb currentTime (end_ n).

(** The callback of [notesInTime.map]: [{ ...n, string: finalString,
    fret: finalFret }]. *)
Definition resolveNote (isAutoHand : bool) (currentCenterFret manualCenterFret : Z)
    (n : Note) : Note :=
  let finalString := string n in
  let finalFret := fret n in
  let withFingering (s f : option Z) : Note :=
    {| start := start n; end_ := end_ n; pitch := pitch n; velocity := velocity n;
       bend_value := bend_value n; string := s; fret := f;
       is_vibrato := is_vibrato n; vibrato_depth := vibrato_depth n |} in
  if negb isAutoHand || isUndefined finalString || isUndefined finalFret then
    let targetCenter := if isAutoHand then currentCenterFret else manualCenterFret in
    match GuitarUtils.getBestPosition (pitch n) targetCenter with
    | Some bestPos =>
        withFingering (Some (GuitarUtils.string bestPos)) (Some (GuitarUtils.fret bestPos))
    | None => withFingering finalString finalFret
    end
  else withFingering finalString finalFret.

Definition activeNotes (result : option AnalysisResult) (currentTime : Q)
    (isAutoHand : bool) (manualCenterFret : Z) : list Note :=
  match result with
  | None => []
  | Some result' =>
      let notesInTime := List.filter (inTimeWindow currentTime) (notes result') in
      map (resolveNote isAutoHand
             (currentCenterFret result currentTime isAutoHand manualCenterFret)
             manualCenterFret)
          notesInTime
  end.

Definition currentBend (result : option AnalysisResult) (currentTime : Q) : Q :=
  match result with
  | None => 0%Q
  | Some result =>
      match pitch_bends result with
      | None => 0%Q
      | Some bends =>
          let relevantBends :=
            List.filter (fun b => Qle_bool (bend_time b) currentTime) bends in
          match lastOrUndefined relevantBends with
          | Some bend => bend_pitch bend
          | None => 0%Q
          end
      end
  end.

(** The last element of [xs], in list order, whose time stamp is at or
    before [t], if there is one. *)
Inductive LastAtOrBefore {A : Type} (stamp : A -> Q) (t : Q) : list A -> option A -> Prop :=
| NoneAtOrBefore (xs : list A) :
    (forall x, In x xs -> ~ (stamp x <= t)%Q) ->
    LastAtOrBefore stamp t xs None
| SomeAtOrBefore (earlier : list A) (x : A) (later : list A) :
    (stamp x <= t)%Q ->
    (forall y, In y later -> ~ (stamp y <= t)%Q) ->
    LastAtOrBefore stamp t (earlier ++ x :: later) (Some x).

(** A note carries an explicit fingering when both fields are present. *)
Definition explicitFingering (n : Note) : option (Z * Z) :=
  match string n, fret n with
  | Some s, Some f => Some (s, f)
  | _, _ => None
  end.

(** The string and fret fields that stand for a result of
    [getBestPosition]: both set for a position, both undefined for null. *)
Definition fingeringOf (bestPos : option GuitarUtils.Note) : option Z * option Z :=
  match bestPos with
  | Some pos => (Some (GuitarUtils.string pos), Some (GuitarUtils.fret pos))
  | None => (None, None)
  end.

(** *** Hand controls and label mode: the state setters handed to the
    HandControls and Player components *)

Record HandState := { isAutoHand : bool; manualCenterFret : Z }.

(** [useState(true)] and [useState(2)]. *)
Definition initialHand : HandState := {| isAutoHand := true; manualCenterFret := 2 |}.

Inductive HandEvent :=
| ToggleClicked
    (* the AUTO/MANUAL switch: [onToggleAuto(!isAuto)] *)
| SliderChanged (value : Z)
    (* the range input: [onFretChange(parseInt(e.target.value))], then
       [if (isAuto) onToggleAuto(false)] *)
| ResumeClicked
    (* "Resume Auto-Tracking", rendered only when [!isAuto]:
       [onToggleAuto(true)] *)
| AnalysisLoaded.
    (* [handleUpload] after a successful analysis: [setIsAutoHand(true)] *)

Definition handStep (s : HandState) (e : HandEvent) : HandState :=
  match e with
  | ToggleClicked =>
      {| isAutoHand := negb (isAutoHand s); manualCenterFret := manualCenterFret s |}
  | SliderChanged value =>
      {| isAutoHand := if isAutoHand s then false else isAutoHand s;
         manualCenterFret := value |}
  | ResumeClicked =>
      if isAutoHand s then s
      else {| isAutoHand := true; manualCenterFret := manualCenterFret s |}
  | AnalysisLoaded =>
      {| isAutoHand := true; manualCenterFret := manualCenterFret s |}
  end.

Definition handRun (s : HandState) (events : list HandEvent) : HandState :=
  fold_left handStep events s.

(** The slider is [<input type="range" min="0" max="17">]. *)
Definition sliderValue (e : HandEvent) : Prop :=
  match e with
  | SliderChanged value => 0 <= value <= 17
  | _ => True
  end.

(** ['none' | 'name' | 'fret'] *)
Inductive NoteLabelMode := LabelNone | LabelName | LabelFret.



End App.

(* ===================================================================== *)
(** ** Fretboard: active positions, note trail, sweep, marker bend *)
(* ===================================================================== *)

Module Fretboard.

(** An entry of [currentActivePositions] or [renderedNotes].  The object is
    [{ ...pos, ...note, isFading }], later possibly extended with
    [fadeStartTime]; the notes handed over by App always carry their own
    [string], [fret] and [pitch] properties, so after the spread the note's
    fields are the ones that remain and the entry is the note plus the two
    presentation fields.  A key [`${string}-${fret}`] is kept as the pair
    of the two integers. *)
Record Rendered := {
  note : App.Note;
  isFading : bool;
  fadeStartTime : option Z
}.

(** The position looked up for a note in the [for] loop. *)
Definition positionOf (centerFret : Z) (n : App.Note) : option GuitarUtils.Note :=
  match App.string n, App.fret n with
  | Some s, Some f =>
      Some {| GuitarUtils.string := s; GuitarUtils.fret := f;
              GuitarUtils.pitch := App.pitch n |}
  | _, _ => GuitarUtils.getBestPosition (App.pitch n) centerFret
  end.

Definition shouldRender (centerFret : Z) (filterOutOfRange : bool)
    (n : App.Note) (pos : GuitarUtils.Note) : bool :=
  let isExplicit := negb (App.isUndefined (App.string n)) in
  if isExplicit then true
  else
    let minReach := centerFret - 1 in
    let maxReach := centerFret + 5 in
    negb filterOutOfRange
    || ((minReach <=? GuitarUtils.fret pos) && (GuitarUtils.fret pos <=? maxReach)).

(** One iteration of the loop: the key written and the value stored, if
    any. *)
Definition entryOf (centerFret : Z) (filterOutOfRange : bool) (n : App.Note)
    : option ((Z * Z) * Rendered) :=
  match positionOf centerFret n with
  | Some pos =>
      if shouldRender centerFret filterOutOfRange n pos
      then Some ((GuitarUtils.string pos, GuitarUtils.fret pos),
                 {| note := n; isFading := false; fadeStartTime := None |})
      else None
  | None => None
  end.

Definition currentActivePositions (activeNotes : list App.Note) (centerFret : Z)
    (filterOutOfRange : bool) : gmap (Z * Z) Rendered :=
  fold_left
    (fun positions n =>
       match entryOf centerFret filterOutOfRange n with
       | Some (key, e) => <[key := e]> positions
       | None => positions
       end)
    activeNotes ∅.

(** [{ ...currentActivePositions[key], isFading: false }] *)
Definition keepActive (a : Rendered) : Rendered :=
  {| note := note a; isFading := false; fadeStartTime := fadeStartTime a |}.

(** [{ ...next[key], isFading: true, fadeStartTime: Date.now() }] *)
Definition startFading (r : Rendered) (t : Z) : Rendered :=
  {| note := note r; isFading := true; fadeStartTime := Some t |}.

(** [next[key].isFading && (now - next[key].fadeStartTime > 500)]; with no
    [fadeStartTime] the difference is NaN and the test is false. *)
Definition fadeElapsed (now : Z) (r : Rendered) : bool :=
  isFading r
  && match fadeStartTime r with
     | Some t0 => 500 <? now - t0
     | None => false
     end.

(** The updater passed to [setRenderedNotes] by the reconciliation effect.
    [markTime] is the reading of [Date.now()] in step 1 and [now] the one
    of step 3. *)
Definition reconcile (prev active : gmap (Z * Z) Rendered) (markTime now : Z)
    : gmap (Z * Z) Rendered :=
  (* 1. mark existing notes *)
  let marked :=
    map_imap
      (fun key r =>
         Some match active !! key with
              | None => if isFading r then r else startFading r markTime
              | Some a => keepActive a
              end)
      prev in
  (* 2. add new active notes *)
  let added := (keepActive <$> active) ∪ marked in
  (* 3. cleanup *)
  filter (fun kr => fadeElapsed now kr.2 = false) added.

(** What the three steps of [reconcile] leave under one key, from the
    entries the key had in [prev] and in the active positions. *)
Definition reconcileKey (prevEntry activeEntry : option Rendered) (markTime now : Z)
    : option Rendered :=
  let afterSteps12 :=
    match activeEntry with
    | Some a => Some (keepActive a)
    | None =>
        match prevEntry with
        | Some r => Some (if isFading r then r else startFading r markTime)
        | None => None
        end
    end in
  match afterSteps12 with
  | Some e => if fadeElapsed now e then None else Some e
  | None => None
  end.

(** [Object.values(renderedNotes).some(n => n.isFading)] *)
Definition hasFading (renderedNotes : gmap (Z * Z) Rendered) : bool :=
  existsb (fun kr => isFading kr.2) (map_to_list renderedNotes).

(** The updater of the interval callback, with its [changed] flag. *)
Definition sweep (prev : gmap (Z * Z) Rendered) (now : Z)
    : gmap (Z * Z) Rendered * bool :=
  let changed := existsb (fun kr => fadeElapsed now kr.2) (map_to_list prev) in
  let next := filter (fun kr => fadeElapsed now kr.2 = false) prev in
  (if changed then next else prev, changed).

(** *** The component over wall-clock time

    State of the mounted component: the [renderedNotes] state, the time of
    the next firing of the sweep interval when one is set, and the
    wall clock in milliseconds.  Scheduling is the ideal one of the
    runtime: [setInterval(f, 100)] set at time [c] fires at [c + 100],
    [c + 200], ... until cleared, an effect runs at the time of the state
    change that triggers it, and an updater runs within one clock
    reading. *)
Record Component := {
  renderedNotes : gmap (Z * Z) Rendered;
  interval : option Z;
  clock : Z
}.

(** The sweep effect: no interval unless something is fading. *)
Definition sweepEffect (renderedNotes : gmap (Z * Z) Rendered) (clock : Z) : option Z :=
  if hasFading renderedNotes then Some (clock + 100) else None.

Inductive Event :=
| Wait (d : Z)
    (* the wall clock advances by [d] ms *)
| Props (activeNotes : list App.Note) (centerFret : Z) (filterOutOfRange : bool)
    (* new props: [currentActivePositions] changes, the reconciliation
       effect runs *)
| IntervalFires.
    (* the sweep interval reaches its firing time *)

Definition step (c : Component) (e : Event) : option Component :=
  match e with
  | Wait d =>
      if (0 <=? d)
         && match interval c with
            | Some f => clock c + d <=? f
            | None => true
            end
      then Some {| renderedNotes := renderedNotes c; interval := interval c;
                   clock := clock c + d |}
      else None
  | Props activeNotes centerFret filterOutOfRange =>
      let active := currentActivePositions activeNotes centerFret filterOutOfRange in
      let next := reconcile (renderedNotes c) active (clock c) (clock c) in
      (* [renderedNotes] is a new object: the sweep effect is re-run *)
      Some {| renderedNotes := next; interval := sweepEffect next (clock c);
              clock := clock c |}
  | IntervalFires =>
      match interval c with
      | Some f =>
          if f =? clock c then
            let '(next, changed) := sweep (renderedNotes c) (clock c) in
            Some {| renderedNotes := next;
                    interval := if changed then sweepEffect next (clock c)
                                else Some (f + 100);
                    clock := clock c |}
          else None
      | None => None
      end
  end.

Fixpoint run (c : Component) (events : list Event) : option Component :=
  match events with
  | [] => Some c
  | e :: rest =>
      match step c e with
      | Some c' => run c' rest
      | None => None
      end
  end.

(** The component as mounted at wall-clock time [t]. *)
Definition mount (t : Z) : Component :=
  {| renderedNotes := ∅; interval := None; clock := t |}.

(** The key stays out of the active positions at every change of props in
    [events]. *)
Definition staysInactive (key : Z * Z) (events : list Event) : Prop :=
  List.Forall
    (fun e =>
       match e with
       | Props activeNotes centerFret filterOutOfRange =>
           currentActivePositions activeNotes centerFret filterOutOfRange !! key = None
       | _ => True
       end)
    events.

(** The key is among the active positions at every change of props in
    [events]. *)
Definition staysActive (key : Z * Z) (events : list Event) : Prop :=
  List.Forall
    (fun e =>
       match e with
       | Props activeNotes centerFret filterOutOfRange =>
           is_Some (currentActivePositions activeNotes centerFret filterOutOfRange !! key)
       | _ => True
       end)
    events.

(** Events in which the parent does nothing: only the clock and the sweep
    interval run. *)
Definition idle (events : list Event) : Prop :=
  List.Forall (fun e => match e with Props _ _ _ => False | _ => True end) events.

(** The sweep interval is set exactly when something is fading, and never
    lies in the past. *)
Definition sweepScheduled (c : Component) : Prop :=
  (is_Some (interval c) <-> hasFading (renderedNotes c) = true)
  /\ (forall f, interval c = Some f -> clock c <= f).

(** State of a key that started to fade at [t0] and has stayed out of the
    active positions since: either it is still there, fading since [t0],
    with a sweep due by [t0 + 600]; or it is gone and more than 500 ms have
    passed. *)
Definition fadeWindow (key : Z * Z) (t0 : Z) (c : Component) : Prop :=
  match renderedNotes c !! key with
  | Some r =>
      isFading r = true /\ fadeStartTime r = Some t0
      /\ exists f, interval c = Some f /\ f <= t0 + 600
  | None => t0 + 500 < clock c
  end.

(** *** Marker bend *)

(** [note.bend_value || 0] *)
Definition orZero (x : option Q) : Q :=
  match x with
  | Some b => if Qeq_bool b 0 then 0%Q else b
  | None => 0%Q
  end.

Definition dynamicBend (r : Rendered) (currentBend : Q) : Q :=
  let isActive := negb (isFading r) in
  if isActive then currentBend else orZero (App.bend_value (note r)).

(** [Math.abs(dynamicBend) > 0.05 ? dynamicBend : 0] *)
Definition bendVal (r : Rendered) (currentBend : Q) : Q :=
  let d := dynamicBend r currentBend in
  if App.Qltb (5 # 100) (Qabs d) then d else 0%Q.

(** A marker is drawn for an entry unless [note.string === undefined]. *)
Definition drawsMarker (r : Rendered) : bool :=
  negb (App.isUndefined (App.string (note r))).

(** [Math.abs(bendVal) > 0.2] *)
Definition isBending (r : Rendered) (currentBend : Q) : bool :=
  App.Qltb (2 # 10) (Qabs (bendVal r currentBend)).

(** The radius of the marker circle: [isBending ? 11 : 9]. *)
Definition markerRadius (r : Rendered) (currentBend : Q) : Z :=
  if isBending r currentBend then 11 else 9.

(** *** Geometry of the strings *)

Definition stringSpacing : Z := 30.
Definition edgeMargin : Z := 12.
Definition topMargin : Z := 30.

Definition visualBoardHeight : Z :=
  (GuitarUtils.NUM_STRINGS - 1) * stringSpacing + edgeMargin * 2.

Definition svgHeight : Z := topMargin + visualBoardHeight.

(** The y coordinate of the [i]-th string line; lines are drawn for
    [i = 0 .. NUM_STRINGS - 1]. *)
Definition stringY (i : Z) : Z := topMargin + edgeMargin + i * stringSpacing.

(** The y coordinate of the marker of an entry on data string
    [dataStringIndex]. *)
Definition markerY (dataStringIndex : Z) : Z :=
  let visualStringIndex := (6 - dataStringIndex) - 1 in
  topMargin + edgeMargin + visualStringIndex * stringSpacing.

(** The text of a marker: nothing in mode 'none', the note name in mode
    'name', the fret otherwise. *)
Inductive LabelText :=
| NameText (name : option String.string)
| FretText (fret : option Z).

Definition markerLabel (noteLabelMode : App.NoteLabelMode) (r : Rendered)
    : option LabelText :=
  match noteLabelMode with
  | App.LabelNone => None
  | App.LabelName => Some (NameText (GuitarUtils.getNoteName (App.pitch (note r))))
  | App.LabelFret => Some (FretText (App.fret (note r)))
  end.

(** *** Well-formed trails *)

(** Every fading entry carries the time its fade started, which is not in
    the future, and a sweep is due within 600 ms of it; an entry that is not
    fading carries no time stamp. *)
Definition trailBounded (c : Component) : Prop :=
  forall (key : Z * Z) (r : Rendered),
    renderedNotes c !! key = Some r ->
    if isFading r
    then exists t0, fadeStartTime r = Some t0 /\ t0 <= clock c
                    /\ exists f, interval c = Some f /\ f <= t0 + 600
    else fadeStartTime r = None.

End Fretboard.

(* ===================================================================== *)
(** ** AudioRecorder: the container of a recording *)
(* ===================================================================== *)

Module AudioRecorder.

Import String.StringSyntax.
Local Open Scope string_scope.

(** The candidates of [startRecording], in the order they are tried. *)
Definition mimeTypes : list String.string :=
  ["audio/webm;codecs=opus"; "audio/webm"; "audio/mp4"; "audio/ogg"].

(** The loop over [mimeTypes]: the first type the browser's
    [MediaRecorder.isTypeSupported] accepts, the empty string if none. *)
Fixpoint firstSupported (isTypeSupported : String.string -> bool)
    (types : list String.string) : String.string :=
  match types with
  | [] => ""
  | type :: rest =>
      if isTypeSupported type then type else firstSupported isTypeSupported rest
  end.

Definition selectedMimeType (isTypeSupported : String.string -> bool) : String.string :=
  firstSupported isTypeSupported mimeTypes.

(** [s.includes(sub)] *)
Definition includes (s sub : String.string) : bool :=
  match String.index 0 sub s with
  | Some _ => true
  | None => false
  end.

(** The extension chosen in [onstop]. *)
Definition fileExtension (selectedMimeType : String.string) : String.string :=
  if includes selectedMimeType "mp4" then "mp4"
  else if includes selectedMimeType "ogg" then "ogg"
  else if includes selectedMimeType "wav" then "wav"
  else "webm".

(** [selectedMimeType || 'audio/webm'] *)
Definition blobType (selectedMimeType : String.string) : String.string :=
  if String.eqb selectedMimeType "" then "audio/webm" else selectedMimeType.

(** The names the facts below speak of. *)
Definition webmOpus : String.string := "audio/webm;codecs=opus".
Definition webm : String.string := "audio/webm".
Definition mp4 : String.string := "audio/mp4".
Definition ogg : String.string := "audio/ogg".
Definition none : String.string := "".
Definition extWebm : String.string := "webm".
Definition extMp4 : String.string := "mp4".
Definition extOgg : String.string := "ogg".
Definition extWav : String.string := "wav".

End AudioRecorder.

(* ===================================================================== *)
(** ** Sample payloads *)
(* ===================================================================== *)

Module Scenario.

Definition unfingered (start end_ : Q) (pitch : Z) : App.Note :=
  {| App.start := start; App.end_ := end_; App.pitch := pitch; App.velocity := 1%Q;
     App.bend_value := None; App.string := None; App.fret := None;
     App.is_vibrato := None; App.vibrato_depth := None |}.

Definition fingered (start end_ : Q) (pitch string fret : Z) : App.Note :=
  {| App.start := start; App.end_ := end_; App.pitch := pitch; App.velocity := 1%Q;
     App.bend_value := Some (1 # 2)%Q; App.string := Some string; App.fret := Some fret;
     App.is_vibrato := None; App.vibrato_depth := None |}.

(** A4 without fingering, sounding over [1, 2). *)
Definition a4 : App.Note := unfingered 1 2 57.

(** E7 fingered by the analysis at fret 24 of the high E string: a fret the
    front end's 22-fret table does not have, so [getPossiblePositions 88]
    is empty. *)
Definition e7 : App.Note := fingered 0 3 88 5 24.

(** A pitch below the low E string, without fingering. *)
Definition lowB : App.Note := unfingered 0 3 35.

(** C4 fingered by the analysis on string 3, fret 5. *)
Definition c4 : App.Note := fingered 0 1 60 3 5.

Definition payload : App.AnalysisResult :=
  {| App.duration := 3%Q;
     App.notes := [c4; a4; e7; lowB];
     App.hand_positions :=
       [ {| App.time := 0%Q; App.center_fret := 3 |};
         {| App.time := 2%Q; App.center_fret := 7 |} ];
     App.pitch_bends :=
       Some [ {| App.bend_time := (1 # 2)%Q; App.bend_pitch := (3 # 10)%Q |};
              {| App.bend_time := (5 # 2)%Q; App.bend_pitch := (-1 # 4)%Q |} ] |}.

(** What App hands to the Fretboard at playback time 1.0 in automatic mode:
    [a4] resolved to string 3, fret 2, and [e7] and [lowB] as they came. *)
Definition playing : list App.Note := App.activeNotes (Some payload) 1 true 2.

(** A mounted component in which the marker of [a4] at (3, 2) has been
    fading since wall-clock time 1000. *)
Definition fadingA4 : Fretboard.Component :=
  {| Fretboard.renderedNotes :=
       {[ (3, 2) := {| Fretboard.note := App.resolveNote true 3 2 a4;
                       Fretboard.isFading := true;
                       Fretboard.fadeStartTime := Some 1000 |} ]};
     Fretboard.interval := Some 1100;
     Fretboard.clock := 1050 |}.

(** The entry of [c4] once it has started to fade. *)
Definition fadingC4 : Fretboard.Rendered :=
  {| Fretboard.note := c4; Fretboard.isFading := true;
     Fretboard.fadeStartTime := Some 1000 |}.

(** A mounted component showing the marker of [a4] at (3, 2), not fading,
    at wall-clock time 1000. *)
Definition showingA4 : Fretboard.Component :=
  {| Fretboard.renderedNotes :=
       {[ (3, 2) := {| Fretboard.note := App.resolveNote true 3 2 a4;
                       Fretboard.isFading := false;
                       Fretboard.fadeStartTime := None |} ]};
     Fretboard.interval := None;
     Fretboard.clock := 1000 |}.

(** Playback paused: [n] rounds of 100 ms followed by a firing of the sweep
    interval. *)
Fixpoint sweepRounds (n : nat) : list Fretboard.Event :=
  match n with
  | O => []
  | S n' => Fretboard.Wait 100 :: Fretboard.IntervalFires :: sweepRounds n'
  end.

End Scenario.

(* ===================================================================== *)
(** ** Facts about utils/guitarUtils *)
(* ===================================================================== *)

Section GuitarUtilsFacts.
Import GuitarUtils.

Lemma forEachString_In (p k : Z) (tuning : list Z) (pos : Note) :
  In pos (forEachString p k tuning) <->
  exists (i : nat) (openPitch : Z),
    tuning !! i = Some openPitch /\ 0 <= p - openPitch <= MAX_FRET /\
    pos = {| string := k + Z.of_nat i; fret := p - openPitch; pitch := p |}.
Proof.
  revert k. induction tuning as [|o rest IH]; intros k; simpl.
  - split; [tauto | intros (i & o & H & _); destruct i; discriminate].
  - destruct (Z.leb_spec 0 (p - o)) as [H0|H0];
      destruct (Z.leb_spec (p - o) MAX_FRET) as [H1|H1]; simpl;
      rewrite ?IH.
    1: { split.
         - intros [<- | (i & o' & Hi & Hr & ->)].
           + exists 0%nat, o. rewrite Z.add_0_r. auto.
           + exists (S i), o'. repeat split; auto; try lia.
             f_equal; lia.
         - intros (i & o' & Hi & Hr & ->). destruct i as [|i]; simpl in Hi.
           + left. inversion Hi; subst. f_equal; lia.
           + right. exists i, o'. repeat split; auto; try lia. f_equal; lia. }
    all: split;
      [ intros (i & o' & Hi & Hr & ->); exists (S i), o';
        repeat split; auto; try lia; f_equal; lia
      | intros (i & o' & Hi & Hr & ->); destruct i as [|i]; simpl in Hi;
        [ inversion Hi; subst; lia
        | exists i, o'; repeat split; auto; try lia; f_equal; lia ] ].
Qed.

Lemma forEachString_lower (p k : Z) (tuning : list Z) (pos : Note) :
  In pos (forEachString p k tuning) -> k <= string pos.
Proof.
  rewrite forEachString_In. intros (i & o & _ & _ & ->). simpl. lia.
Qed.

(** Positions come out in strictly increasing string order. *)
Lemma forEachString_sorted (p k : Z) (tuning : list Z) :
  StronglySorted (fun a b => string a < string b) (forEachString p k tuning).
Proof.
  revert k. induction tuning as [|o rest IH]; intros k; simpl.
  - constructor.
  - destruct ((0 <=? p - o) && (p - o <=? MAX_FRET)); [|apply IH].
    constructor; [apply IH|].
    apply List.Forall_forall. intros q Hq.
    apply forEachString_lower in Hq. simpl. lia.
Qed.

Lemma getPossiblePositions_In (p : Z) (pos : Note) :
  In pos (getPossiblePositions p) <->
  exists i : nat,
    (i < 6)%nat /\ playableOn p i /\
    exists openPitch, TUNING !! i = Some openPitch /\
      pos = {| string := Z.of_nat i; fret := p - openPitch; pitch := p |}.
Proof.
  unfold getPossiblePositions. rewrite forEachString_In.
  unfold playableOn, MAX_FRET. split.
  - intros (i & o & Hi & Hr & ->). exists i. split.
    + apply lookup_lt_Some in Hi. exact Hi.
    + split; [exists o; auto | exists o; split; [exact Hi | f_equal; lia]].
  - intros (i & _ & (o & Hi & Hr) & (o' & Hi' & ->)).
    assert (o' = o) by congruence. subst o'.
    exists i, o. repeat split; auto; try lia.
Qed.

Lemma getPossiblePositions_nil (p : Z) :
  getPossiblePositions p = [] <-> ~ reachable p.
Proof.
  split.
  - intros Hnil (i & o & Hi & Hr).
    assert (Hx : In {| string := Z.of_nat i; fret := p - o; pitch := p |}
                    (getPossiblePositions p)).
    { apply getPossiblePositions_In. exists i.
      split; [apply lookup_lt_Some in Hi; exact Hi|].
      split; [exists o; auto | exists o; auto]. }
    rewrite Hnil in Hx. destruct Hx.
  - intros Hun. destruct (getPossiblePositions p) as [|x l] eqn:E; [reflexivity|].
    exfalso. apply Hun.
    assert (Hx : In x (getPossiblePositions p)) by (rewrite E; left; reflexivity).
    apply getPossiblePositions_In in Hx. destruct Hx as (i & _ & Hp & _).
    exists i; exact Hp.
Qed.

(** C8. For every integer pitch [p], [getPossiblePositions p] holds the
    pair (string [i], fret [p - TUNING[i]]) for exactly the strings [i]
    of the six on which [0 <= p - TUNING[i] <= 22], each once and in
    string order; hence no returned fret lies outside [0, 22], and the
    list is empty iff the pitch is unreachable on every string. *)
Theorem getPossiblePositions_exact (p : Z) :
  (forall pos : Note,
      In pos (getPossiblePositions p) <->
      exists i : nat,
        (i < 6)%nat /\ playableOn p i /\
        exists openPitch, TUNING !! i = Some openPitch /\
          pos = {| string := Z.of_nat i; fret := p - openPitch; pitch := p |})
  /\ StronglySorted (fun a b => string a < string b) (getPossiblePositions p)
  /\ (forall pos : Note, In pos (getPossiblePositions p) -> 0 <= fret pos <= 22)
  /\ (getPossiblePositions p = [] <-> ~ reachable p).
Proof.
  split; [apply getPossiblePositions_In|].
  split; [apply forEachString_sorted|]. split.
  - intros pos Hpos. apply getPossiblePositions_In in Hpos.
    destruct Hpos as (i & _ & (o & Hi & Hr) & (o' & Hi' & ->)).
    assert (o' = o) by congruence. subst o'. simpl. lia.
  - apply getPossiblePositions_nil.
Qed.

(** The scan of [reduce]: started from [acc] with the remaining candidates
    [rest] in increasing string order, it ends on a candidate at least as
    close to [c] as every other, and on the lowest string among the
    closest. *)
Lemma fold_closer_least (c : Z) (rest : list Note) (acc : Note) :
  List.Forall (fun q => string acc < string q) rest ->
  StronglySorted (fun a b => string a < string b) rest ->
  In (fold_left (closer c) rest acc) (acc :: rest) /\
  forall q, In q (acc :: rest) ->
    dist c (fold_left (closer c) rest acc) <= dist c q /\
    (dist c q = dist c (fold_left (closer c) rest acc) ->
     string (fold_left (closer c) rest acc) <= string q).
Proof.
  revert acc. induction rest as [|x rest IH]; intros acc Hacc Hsorted.
  - simpl. split; [auto|]. intros q [<-|[]]. lia.
  - apply StronglySorted_inv in Hsorted. destruct Hsorted as [Hs Hx].
    apply List.Forall_cons_iff in Hacc. destruct Hacc as [Hax Hacc].
    cbn [fold_left].
    assert (Hnext : List.Forall (fun q => string (closer c acc x) < string q) rest).
    { unfold closer. destruct (_ <? _); assumption. }
    destruct (IH (closer c acc x) Hnext Hs) as [Hmem Hmin].
    set (r := fold_left (closer c) rest (closer c acc x)) in *.
    assert (Hr_acc : dist c r <= dist c (closer c acc x)
                     /\ (dist c (closer c acc x) = dist c r ->
                         string r <= string (closer c acc x)))
      by (apply Hmin; left; reflexivity).
    unfold closer in Hmem, Hr_acc. fold (dist c x) (dist c acc) in Hmem, Hr_acc.
    destruct (Z.ltb_spec (dist c x) (dist c acc)) as [Hlt|Hge].
    + split.
      * destruct Hmem as [<-|Hmem]; [right; left; reflexivity | right; right; exact Hmem].
      * intros q [<-|[<-|Hq]].
        -- lia.
        -- apply Hr_acc.
        -- apply Hmin. right. exact Hq.
    + split.
      * destruct Hmem as [<-|Hmem]; [left; reflexivity | right; right; exact Hmem].
      * intros q [<-|[<-|Hq]].
        -- apply Hr_acc.
        -- lia.
        -- apply Hmin. right. exact Hq.
Qed.

(** C1. For every pitch [p] reachable on at least one string and every
    integer [c], [getBestPosition p c] is an element of
    [getPossiblePositions p] whose fret minimises [|fret - c|], and among
    the candidates at that distance it is the one on the lowest string;
    with the standard tuning, [getBestPosition 57 3] is string 3, fret 2. *)
Theorem getBestPosition_closest_lowest_string :
  (forall p c : Z,
      reachable p ->
      exists best : Note,
        getBestPosition p c = Some best /\
        In best (getPossiblePositions p) /\
        forall q : Note,
          In q (getPossiblePositions p) ->
          Z.abs (fret best - c) <= Z.abs (fret q - c) /\
          (Z.abs (fret q - c) = Z.abs (fret best - c) -> string best <= string q))
  /\ TUNING = [40; 45; 50; 55; 59; 64]
  /\ getBestPosition 57 3 = Some {| string := 3; fret := 2; pitch := 57 |}.
Proof.
  split; [|split; reflexivity].
  intros p c Hreach.
  pose proof (forEachString_sorted p 0 TUNING) as Hsorted.
  pose proof (getPossiblePositions_nil p) as Hnil.
  fold (getPossiblePositions p) in Hsorted.
  unfold getBestPosition.
  destruct (getPossiblePositions p) as [|first rest] eqn:E.
  - exfalso. apply (proj1 Hnil); [reflexivity | exact Hreach].
  - apply StronglySorted_inv in Hsorted. destruct Hsorted as [Hs Hfirst].
    destruct (fold_closer_least c rest first Hfirst Hs) as [Hmem Hmin].
    exists (fold_left (closer c) rest first). split; [reflexivity|].
    split; [exact Hmem|]. intros q Hq. apply (Hmin q Hq).
Qed.

(** An instance of C1 with a tie: pitch 60 lies at distance 2 from fret 3
    on both string 3 (fret 5) and string 4 (fret 1). *)
Lemma getBestPosition_closest_lowest_string_witness :
  reachable 60 /\
  exists best : Note,
    getBestPosition 60 3 = Some best /\
    In best (getPossiblePositions 60) /\
    forall q : Note,
      In q (getPossiblePositions 60) ->
      Z.abs (fret best - 3) <= Z.abs (fret q - 3) /\
      (Z.abs (fret q - 3) = Z.abs (fret best - 3) -> string best <= string q).
Proof.
  assert (H : reachable 60).
  { exists 3%nat, 55. split; [reflexivity | lia]. }
  split; [exact H|].
  exact (proj1 getBestPosition_closest_lowest_string 60 3 H).
Defined.

Example getBestPosition_tie : getBestPosition 60 3 = Some {| string := 3; fret := 5; pitch := 60 |}.
Proof. reflexivity. Qed.

End GuitarUtilsFacts.

(* ===================================================================== *)
(** ** Facts about the derived state of App *)
(* ===================================================================== *)

Section AppFacts.
Import App.

Lemma Qltb_lt (a b : Q) : Qltb a b = true <-> (a < b)%Q.
Proof. unfold Qltb, Qlt. apply Z.ltb_lt. Qed.

Lemma inTimeWindow_iff (t : Q) (n : Note) :
  inTimeWindow t n = true <-> (start n <= t)%Q /\ (t < end_ n)%Q.
Proof.
  unfold inTimeWindow. rewrite andb_true_iff, Qle_bool_iff, Qltb_lt. tauto.
Qed.

Lemma lastOrUndefined_snoc {A : Type} (xs : list A) (x : A) :
  lastOrUndefined (xs ++ [x]) = Some x.
Proof.
  unfold lastOrUndefined. rewrite length_app. simpl.
  destruct (Nat.ltb_spec 0 (length xs + 1)) as [_|H]; [|lia].
  replace (length xs + 1 - 1)%nat with (length xs) by lia.
  rewrite lookup_app_r by lia. rewrite Nat.sub_diag. reflexivity.
Qed.

Lemma filter_none {A : Type} (f : A -> bool) (xs : list A) :
  (forall x, In x xs -> f x = false) -> List.filter f xs = [].
Proof.
  induction xs as [|x xs IH]; intros H; simpl; [reflexivity|].
  rewrite (H x) by (left; reflexivity). apply IH. intros y Hy. apply H. right. exact Hy.
Qed.

(** The [filter]-then-last idiom of both lookups picks the element singled
    out by [LastAtOrBefore]. *)
Lemma lastOrUndefined_filter {A : Type} (stamp : A -> Q) (t : Q) (xs : list A) (o : option A) :
  LastAtOrBefore stamp t xs o ->
  lastOrUndefined (List.filter (fun x => Qle_bool (stamp x) t) xs) = o.
Proof.
  intros H. destruct H as [xs Hnone | earlier x later Hx Hlater].
  - rewrite filter_none; [reflexivity|].
    intros x Hin. apply not_true_is_false. rewrite Qle_bool_iff. apply Hnone, Hin.
  - rewrite List.filter_app. simpl.
    apply Qle_bool_iff in Hx. rewrite Hx.
    rewrite (filter_none _ later).
    + apply lastOrUndefined_snoc.
    + intros y Hin. apply not_true_is_false. rewrite Qle_bool_iff. apply Hlater, Hin.
Qed.

(** Every series has a last sample at or before [t], or none at all. *)
Lemma LastAtOrBefore_total {A : Type} (stamp : A -> Q) (t : Q) (xs : list A) :
  exists o, LastAtOrBefore stamp t xs o.
Proof.
  induction xs as [|x xs [o IH]].
  - exists None. constructor. intros x [].
  - destruct IH as [xs Hnone | earlier y later Hy Hlater].
    + destruct (Qle_bool (stamp x) t) eqn:E.
      * exists (Some x). apply (SomeAtOrBefore stamp t [] x xs).
        -- apply Qle_bool_iff, E.
        -- exact Hnone.
      * exists None. constructor. intros y [<-|Hin].
        -- rewrite <- Qle_bool_iff, E. discriminate.
        -- apply Hnone, Hin.
    + exists (Some y). apply (SomeAtOrBefore stamp t (x :: earlier) y later Hy Hlater).
Qed.

(** C7. A note is classified as sounding at [t] iff [start <= t < end]: a
    note that starts exactly at [t] (and has not ended) is sounding, a note
    that ends exactly at [t] is not; the notes that [activeNotes] resolves
    are exactly the sounding ones.  A note with start 1.0 and end 2.0 is not
    sounding at 0.99, is sounding at 1.0 and is not sounding at 2.0. *)
Theorem sounding_iff_half_open (t : Q) :
  (forall n : Note,
      inTimeWindow t n = true <-> (start n <= t)%Q /\ (t < end_ n)%Q)
  /\ (forall n : Note,
        (start n == t)%Q -> (t < end_ n)%Q -> inTimeWindow t n = true)
  /\ (forall n : Note, (end_ n == t)%Q -> inTimeWindow t n = false)
  /\ (forall (r : AnalysisResult) (isAutoHand : bool) (manualCenterFret : Z) (m : Note),
        In m (activeNotes (Some r) t isAutoHand manualCenterFret)
        <-> exists n : Note,
              In n (notes r) /\ (start n <= t)%Q /\ (t < end_ n)%Q /\
              m = resolveNote isAutoHand
                    (currentCenterFret (Some r) t isAutoHand manualCenterFret)
                    manualCenterFret n)
  /\ (forall n : Note,
        start n = 1%Q -> end_ n = 2%Q ->
        inTimeWindow (99 # 100) n = false
        /\ inTimeWindow 1 n = true
        /\ inTimeWindow 2 n = false).
Proof.
  split; [intros n; apply inTimeWindow_iff|]. split; [|split; [|split]].
  - intros n Hs He. apply inTimeWindow_iff. split; [|exact He].
    rewrite Hs. apply Qle_refl.
  - intros n He. apply not_true_is_false. rewrite inTimeWindow_iff.
    intros [_ Hlt]. rewrite He in Hlt. exact (Qlt_irrefl _ Hlt).
  - intros r isAutoHand manualCenterFret m. unfold activeNotes.
    rewrite in_map_iff. split.
    + intros (n & Heq & Hin). apply List.filter_In in Hin. destruct Hin as [Hin Hw].
      apply inTimeWindow_iff in Hw. exists n. symmetry in Heq. tauto.
    + intros (n & Hin & Hs & He & Heq). exists n. split; [symmetry; exact Heq|].
      apply List.filter_In. split; [exact Hin|]. apply inTimeWindow_iff. tauto.
  - intros n Hs He. unfold inTimeWindow. rewrite Hs, He. repeat split; reflexivity.
Qed.

(** C6. Over a loaded payload and for every query time [t]: in automatic
    mode [currentCenterFret] is the [center_fret] of the last hand position
    with [time <= t] and 0 when there is none (in particular for an empty
    list); [currentBend] is the [pitch] of the last bend sample with
    [time <= t] and 0 when there is none (in particular when [pitch_bends]
    is absent).  One of the two cases always applies, so both lookups
    return a value for every payload and time. *)
Theorem timing_lookups_default (r : AnalysisResult) (t : Q) (manualCenterFret : Z) :
  (forall hp : option HandPosition,
      LastAtOrBefore time t (hand_positions r) hp ->
      currentCenterFret (Some r) t true manualCenterFret
      = match hp with Some p => center_fret p | None => 0 end)
  /\ (hand_positions r = [] -> currentCenterFret (Some r) t true manualCenterFret = 0)
  /\ (forall (bends : list BendSample) (b : option BendSample),
        pitch_bends r = Some bends ->
        LastAtOrBefore bend_time t bends b ->
        currentBend (Some r) t
        = match b with Some s => bend_pitch s | None => 0%Q end)
  /\ (pitch_bends r = None -> currentBend (Some r) t = 0%Q)
  /\ (exists hp, LastAtOrBefore time t (hand_positions r) hp)
  /\ (forall bends, pitch_bends r = Some bends ->
        exists b, LastAtOrBefore bend_time t bends b).
Proof.
  split; [|split; [|split; [|split; [|split]]]].
  - intros hp H. unfold currentCenterFret.
    rewrite (lastOrUndefined_filter time t _ hp H). reflexivity.
  - intros H. unfold currentCenterFret. rewrite H. reflexivity.
  - intros bends b Hb H. unfold currentBend. rewrite Hb.
    rewrite (lastOrUndefined_filter bend_time t _ b H). reflexivity.
  - intros H. unfold currentBend. rewrite H. reflexivity.
  - apply LastAtOrBefore_total.
  - intros bends _. apply LastAtOrBefore_total.
Qed.

(** C10. Before a payload is loaded ([result] is null) the derived center
    fret is 2, in automatic and in manual mode alike, whereas a loaded
    payload with an empty [hand_positions] list gives 0 in automatic mode. *)
Theorem currentCenterFret_before_load (t : Q) (isAutoHand : bool) (manualCenterFret : Z) :
  currentCenterFret None t isAutoHand manualCenterFret = 2
  /\ (forall (d : Q) (ns : list Note) (bends : option (list BendSample)),
        currentCenterFret
          (Some {| duration := d; notes := ns; hand_positions := []; pitch_bends := bends |})
          t true manualCenterFret = 0).
Proof. split; [reflexivity | intros; reflexivity]. Qed.

(** C2, as the code has it.  For a note sounding at [t]: in automatic mode
    a note with an explicit (string, fret) pair keeps it; otherwise (manual
    mode, or a field missing) [getBestPosition pitch targetCenter] is
    consulted, with [targetCenter] the automatic center fret in automatic
    mode and the manual value in manual mode, and its position is assigned
    when it yields one, while the note keeps the string and fret fields it
    carried when it yields none.  Nothing else of the note changes. *)
Theorem resolveNote_fingering (r : AnalysisResult) (t : Q) (isAutoHand : bool)
    (manualCenterFret : Z) (n : Note) :
  In n (notes r) ->
  inTimeWindow t n = true ->
  let m := resolveNote isAutoHand
             (currentCenterFret (Some r) t isAutoHand manualCenterFret)
             manualCenterFret n in
  let targetCenter :=
    if isAutoHand then currentCenterFret (Some r) t true manualCenterFret
    else manualCenterFret in
  In m (activeNotes (Some r) t isAutoHand manualCenterFret)
  /\ (start m, end_ m, pitch m, velocity m, bend_value m, is_vibrato m, vibrato_depth m)
     = (start n, end_ n, pitch n, velocity n, bend_value n, is_vibrato n, vibrato_depth n)
  /\ (isAutoHand = true ->
      forall s f, explicitFingering n = Some (s, f) ->
        string m = Some s /\ fret m = Some f)
  /\ (isAutoHand = false \/ explicitFingering n = None ->
      match GuitarUtils.getBestPosition (pitch n) targetCenter with
      | Some bestPos =>
          string m = Some (GuitarUtils.string bestPos)
          /\ fret m = Some (GuitarUtils.fret bestPos)
      | None => string m = string n /\ fret m = fret n
      end).
Proof.
  intros Hin Hw m targetCenter. split; [|split; [|split]].
  - unfold activeNotes. apply in_map. apply List.filter_In. auto.
  - subst m. unfold resolveNote.
    destruct (negb isAutoHand || isUndefined (string n) || isUndefined (fret n));
      [destruct (GuitarUtils.getBestPosition _ _)|]; reflexivity.
  - intros -> s f He. subst m. unfold explicitFingering in He. unfold resolveNote.
    destruct (string n) as [s'|]; [|discriminate].
    destruct (fret n) as [f'|]; [|discriminate].
    inversion He; subst. simpl. auto.
  - intros Hcase. subst m targetCenter. unfold resolveNote.
    assert (Hcond : negb isAutoHand || isUndefined (string n) || isUndefined (fret n) = true).
    { destruct Hcase as [-> | He]; [reflexivity|].
      unfold explicitFingering in He.
      destruct (string n); [destruct (fret n); [discriminate|]|];
        simpl; rewrite ?orb_true_r; reflexivity. }
    rewrite Hcond. destruct isAutoHand;
      destruct (GuitarUtils.getBestPosition _ _); simpl; auto.
Qed.

Lemma timing_lookups_default_witness :
  LastAtOrBefore time 1 (hand_positions Scenario.payload)
    (Some {| time := 0%Q; center_fret := 3 |})
  /\ currentCenterFret (Some Scenario.payload) 1 true 2 = 3.
Proof.
  assert (H : LastAtOrBefore time 1 (hand_positions Scenario.payload)
                (Some {| time := 0%Q; center_fret := 3 |})).
  { apply (SomeAtOrBefore time 1 [] {| time := 0%Q; center_fret := 3 |}
             [ {| time := 2%Q; center_fret := 7 |} ]).
    - discriminate.
    - intros y [<-|[]]. intros Hle. apply Hle. reflexivity. }
  split; [exact H|].
  exact (proj1 (timing_lookups_default Scenario.payload 1 2) _ H).
Defined.

Lemma resolveNote_fingering_witness :
  In Scenario.a4 (notes Scenario.payload)
  /\ inTimeWindow 1 Scenario.a4 = true
  /\ In (resolveNote true 3 2 Scenario.a4) (activeNotes (Some Scenario.payload) 1 true 2)
  /\ string (resolveNote true 3 2 Scenario.a4) = Some 3
  /\ fret (resolveNote true 3 2 Scenario.a4) = Some 2.
Proof.
  assert (Hin : In Scenario.a4 (notes Scenario.payload)) by (right; left; reflexivity).
  assert (Hw : inTimeWindow 1 Scenario.a4 = true) by reflexivity.
  pose proof (resolveNote_fingering Scenario.payload 1 true 2 Scenario.a4 Hin Hw) as H.
  cbv zeta in H. destruct H as (Hmem & _ & _ & Hbest).
  specialize (Hbest (or_intror eq_refl)).
  split; [exact Hin|]. split; [exact Hw|]. split; [exact Hmem|]. exact Hbest.
Defined.

(** C2 as stated fails in manual mode on a note whose pitch the mapper
    cannot place: [getBestPosition] yields nothing, and the resolved note
    still carries the explicit pair (5, 24). *)
Lemma resolveNote_manual_unplaceable_keeps_pair :
  In Scenario.e7 (notes Scenario.payload)
  /\ inTimeWindow 1 Scenario.e7 = true
  /\ explicitFingering Scenario.e7 = Some (5, 24)
  /\ GuitarUtils.getBestPosition (pitch Scenario.e7) 2 = None
  /\ In (resolveNote false 2 2 Scenario.e7) (activeNotes (Some Scenario.payload) 1 false 2)
  /\ (string (resolveNote false 2 2 Scenario.e7), fret (resolveNote false 2 2 Scenario.e7))
     = (Some 5, Some 24)
  /\ (string (resolveNote false 2 2 Scenario.e7), fret (resolveNote false 2 2 Scenario.e7))
     <> fingeringOf (GuitarUtils.getBestPosition (pitch Scenario.e7) 2).
Proof.
  repeat split; try reflexivity.
  - right; right; left; reflexivity.
  - vm_compute. right; left; reflexivity.
  - vm_compute. discriminate.
Qed.

End AppFacts.

(* ===================================================================== *)
(** ** Facts about the Fretboard component *)
(* ===================================================================== *)

Section FretboardFacts.
Import Fretboard.

(** *** Active positions *)

Lemma entryOf_fresh (cf : Z) (fl : bool) (n : App.Note) (k : Z * Z) (e : Rendered) :
  entryOf cf fl n = Some (k, e) ->
  e = {| note := n; isFading := false; fadeStartTime := None |}.
Proof.
  unfold entryOf. destruct (positionOf cf n) as [pos|]; [|discriminate].
  destruct (shouldRender cf fl n pos); [|discriminate].
  intros H. inversion H. reflexivity.
Qed.

(** Every active position was written by some note of the list. *)
Lemma currentActivePositions_origin (ns : list App.Note) (cf : Z) (fl : bool)
    (k : Z * Z) (e : Rendered) :
  currentActivePositions ns cf fl !! k = Some e ->
  exists n, In n ns /\ entryOf cf fl n = Some (k, e).
Proof.
  unfold currentActivePositions.
  assert (G : forall (init : gmap (Z * Z) Rendered),
             fold_left
               (fun positions n =>
                  match entryOf cf fl n with
                  | Some (key, e) => <[key := e]> positions
                  | None => positions
                  end) ns init !! k = Some e ->
             init !! k = Some e \/ exists n, In n ns /\ entryOf cf fl n = Some (k, e)).
  { induction ns as [|n ns IH]; intros init H; simpl in H; [left; exact H|].
    destruct (IH _ H) as [Hinit | (n' & Hin & He)].
    - destruct (entryOf cf fl n) as [[key e']|] eqn:E.
      + destruct (decide (key = k)) as [->|Hne].
        * rewrite lookup_insert_eq in Hinit. inversion Hinit; subst.
          right. exists n. split; [left; reflexivity | exact E].
        * rewrite lookup_insert_ne in Hinit by exact Hne. left. exact Hinit.
      + left. exact Hinit.
    - right. exists n'. split; [right; exact Hin | exact He]. }
  intros H. destruct (G ∅ H) as [Hempty | Hex]; [|exact Hex].
  rewrite lookup_empty in Hempty. discriminate.
Qed.

(** A note whose iteration writes a key leaves that key occupied. *)
Lemma currentActivePositions_written (ns : list App.Note) (cf : Z) (fl : bool)
    (n : App.Note) (k : Z * Z) (e : Rendered) :
  In n ns -> entryOf cf fl n = Some (k, e) ->
  is_Some (currentActivePositions ns cf fl !! k).
Proof.
  intros Hin He. unfold currentActivePositions.
  assert (G : forall (init : gmap (Z * Z) Rendered),
             (is_Some (init !! k) \/ In n ns) ->
             is_Some (fold_left
               (fun positions n =>
                  match entryOf cf fl n with
                  | Some (key, e) => <[key := e]> positions
                  | None => positions
                  end) ns init !! k)).
  { clear Hin. induction ns as [|n' ns IH]; intros init Hor; simpl.
    - destruct Hor as [Hs|[]]. exact Hs.
    - apply IH. destruct Hor as [Hs | [-> | Hin]].
      + left. destruct (entryOf cf fl n') as [[key e']|]; [|exact Hs].
        destruct (decide (key = k)) as [->|Hne].
        * rewrite lookup_insert_eq. eauto.
        * rewrite lookup_insert_ne by exact Hne. exact Hs.
      + left. rewrite He. rewrite lookup_insert_eq. eauto.
      + right. exact Hin. }
  apply G. right. exact Hin.
Qed.

Lemma currentActivePositions_fresh (ns : list App.Note) (cf : Z) (fl : bool)
    (k : Z * Z) (a : Rendered) :
  currentActivePositions ns cf fl !! k = Some a ->
  isFading a = false /\ fadeStartTime a = None.
Proof.
  intros H. apply currentActivePositions_origin in H. destruct H as (n & _ & He).
  apply entryOf_fresh in He. subst a. split; reflexivity.
Qed.

(** *** Reconciliation and sweep, key by key *)

Lemma reconcile_lookup (prev active : gmap (Z * Z) Rendered) (markTime now : Z) (k : Z * Z) :
  reconcile prev active markTime now !! k
  = reconcileKey (prev !! k) (active !! k) markTime now.
Proof.
  unfold reconcile, reconcileKey.
  rewrite map_lookup_filter, lookup_union, lookup_fmap, map_lookup_imap.
  destruct (active !! k) as [a|] eqn:Ea; destruct (prev !! k) as [r|] eqn:Er; simpl;
    try reflexivity.
  set (e := if isFading r then r else startFading r markTime).
  destruct (fadeElapsed now e) eqn:E; case_guard; simpl; congruence.
Qed.

Lemma sweep_lookup (prev : gmap (Z * Z) Rendered) (now : Z) (k : Z * Z) :
  (sweep prev now).1 !! k
  = match prev !! k with
    | Some r => if fadeElapsed now r then None else Some r
    | None => None
    end.
Proof.
  unfold sweep. simpl.
  destruct (existsb _ _) eqn:E.
  - rewrite map_lookup_filter. destruct (prev !! k) as [r|]; simpl; [|reflexivity].
    destruct (fadeElapsed now r) eqn:Er; case_guard; simpl in *; congruence.
  - destruct (prev !! k) as [r|] eqn:Ek; [|reflexivity].
    destruct (fadeElapsed now r) eqn:Er; [|reflexivity].
    exfalso. assert (Hex : existsb (fun kr => fadeElapsed now kr.2) (map_to_list prev) = true).
    { apply existsb_exists. exists (k, r). split; [|exact Er].
      apply list_elem_of_In, elem_of_map_to_list. exact Ek. }
    congruence.
Qed.

Lemma hasFading_true (m : gmap (Z * Z) Rendered) :
  hasFading m = true <-> exists k r, m !! k = Some r /\ isFading r = true.
Proof.
  unfold hasFading. rewrite existsb_exists. split.
  - intros ([k r] & Hin & Hf). exists k, r. split; [|exact Hf].
    apply elem_of_map_to_list, list_elem_of_In. exact Hin.
  - intros (k & r & Hk & Hf). exists (k, r). split; [|exact Hf].
    apply list_elem_of_In, elem_of_map_to_list. exact Hk.
Qed.

Lemma getBestPosition_None (p c : Z) :
  GuitarUtils.getBestPosition p c = None <-> GuitarUtils.getPossiblePositions p = [].
Proof.
  unfold GuitarUtils.getBestPosition.
  destruct (GuitarUtils.getPossiblePositions p); split; intros H; congruence.
Qed.

(** A resolved note either carries both fields or has a pitch the mapper
    cannot place. *)
Lemma resolveNote_fields (isAutoHand : bool) (cf manual : Z) (n : App.Note) :
  (exists s f, App.explicitFingering (App.resolveNote isAutoHand cf manual n) = Some (s, f))
  \/ GuitarUtils.getPossiblePositions (App.pitch (App.resolveNote isAutoHand cf manual n)) = [].
Proof.
  unfold App.resolveNote, App.explicitFingering.
  destruct (negb isAutoHand || App.isUndefined (App.string n) || App.isUndefined (App.fret n))
    eqn:Hcond.
  - destruct (GuitarUtils.getBestPosition (App.pitch n) _) as [b|] eqn:Hb; simpl.
    + left. eauto.
    + right. apply getBestPosition_None in Hb. exact Hb.
  - apply orb_false_elim in Hcond. destruct Hcond as [Hcond Hf].
    apply orb_false_elim in Hcond. destruct Hcond as [_ Hs].
    simpl. destruct (App.string n); [|discriminate]. destruct (App.fret n); [|discriminate].
    left. eauto.
Qed.

(** Of a note that carries both fields or cannot be placed, the loop stores
    an entry only in the first case, and then under the note's own pair. *)
Lemma entryOf_placed (cf : Z) (fl : bool) (m : App.Note) (k : Z * Z) (e : Rendered) :
  (exists s f, App.explicitFingering m = Some (s, f))
  \/ GuitarUtils.getPossiblePositions (App.pitch m) = [] ->
  entryOf cf fl m = Some (k, e) ->
  App.explicitFingering m = Some k /\ drawsMarker e = true.
Proof.
  intros Hfields He. pose proof (entryOf_fresh _ _ _ _ _ He) as ->.
  unfold entryOf, positionOf, shouldRender in He.
  unfold App.explicitFingering in *. unfold drawsMarker. simpl.
  destruct (App.string m) as [s|] eqn:Es; destruct (App.fret m) as [f|] eqn:Ef; simpl in He.
  - inversion He; subst. split; reflexivity.
  - destruct Hfields as [(s' & f' & Hx) | Hnil]; [discriminate|].
    apply (getBestPosition_None _ cf) in Hnil. rewrite Hnil in He. discriminate.
  - destruct Hfields as [(s' & f' & Hx) | Hnil]; [discriminate|].
    apply (getBestPosition_None _ cf) in Hnil. rewrite Hnil in He. discriminate.
  - destruct Hfields as [(s' & f' & Hx) | Hnil]; [discriminate|].
    apply (getBestPosition_None _ cf) in Hnil. rewrite Hnil in He. discriminate.
Qed.

(** C5, as the code has it.  A sounding note whose pitch the mapper cannot
    place ([getPossiblePositions pitch] is empty): if it lacks an explicit
    (string, fret) pair, no position is stored for it, in automatic and in
    manual mode alike; if it carries an explicit pair, it is stored and
    drawn at that pair, in both modes.  Every stored position stems from a
    note for which the loop stores one, so a note without one is absent from
    the rendered set; all the functions involved are total. *)
Theorem unplaceable_note_marker (r : App.AnalysisResult) (t : Q) (isAutoHand : bool)
    (manualCenterFret : Z) (filterOutOfRange : bool) (n : App.Note) :
  In n (App.notes r) ->
  App.inTimeWindow t n = true ->
  GuitarUtils.getPossiblePositions (App.pitch n) = [] ->
  let centerFret := App.currentCenterFret (Some r) t isAutoHand manualCenterFret in
  let m := App.resolveNote isAutoHand centerFret manualCenterFret n in
  let activeNotes := App.activeNotes (Some r) t isAutoHand manualCenterFret in
  In m activeNotes
  /\ (App.explicitFingering n = None ->
      entryOf centerFret filterOutOfRange m = None)
  /\ (forall s f : Z,
        App.explicitFingering n = Some (s, f) ->
        entryOf centerFret filterOutOfRange m
        = Some ((s, f), {| note := m; isFading := false; fadeStartTime := None |})
        /\ exists e,
             currentActivePositions activeNotes centerFret filterOutOfRange !! (s, f) = Some e
             /\ drawsMarker e = true)
  /\ (forall (k : Z * Z) (e : Rendered),
        currentActivePositions activeNotes centerFret filterOutOfRange !! k = Some e ->
        exists m', In m' activeNotes
                   /\ entryOf centerFret filterOutOfRange m' = Some (k, e)).
Proof.
  intros Hin Hw Hnil centerFret m activeNotes.
  assert (Hmem : In m activeNotes).
  { unfold activeNotes, App.activeNotes. apply in_map. apply List.filter_In. auto. }
  assert (Hm : m = n).
  { unfold m, App.resolveNote.
    destruct (negb isAutoHand || App.isUndefined (App.string n)
              || App.isUndefined (App.fret n)); [|destruct n; reflexivity].
    rewrite (proj2 (getBestPosition_None _ _) Hnil). destruct n; reflexivity. }
  clearbody m. subst m.
  split; [exact Hmem|]. split; [|split].
  - intros Hx. unfold entryOf, positionOf.
    rewrite (proj2 (getBestPosition_None _ centerFret) Hnil).
    unfold App.explicitFingering in Hx.
    destruct (App.string n); destruct (App.fret n); try reflexivity. discriminate.
  - intros s f Hx.
    assert (He : entryOf centerFret filterOutOfRange n
                 = Some ((s, f), {| note := n; isFading := false; fadeStartTime := None |})).
    { unfold entryOf, positionOf, shouldRender.
      unfold App.explicitFingering in Hx.
      destruct (App.string n); [|discriminate]. destruct (App.fret n); [|discriminate].
      inversion Hx; subst. reflexivity. }
    split; [exact He|].
    destruct (currentActivePositions_written _ _ _ _ _ _ Hmem He) as [e Hk].
    exists e. split; [exact Hk|].
    apply currentActivePositions_origin in Hk. destruct Hk as (m' & Hin' & He').
    unfold activeNotes, App.activeNotes in Hin'. apply in_map_iff in Hin'.
    destruct Hin' as (n' & <- & _).
    apply (entryOf_placed _ _ _ _ _ (resolveNote_fields _ _ _ _) He').
  - intros k e Hk. apply currentActivePositions_origin in Hk. exact Hk.
Qed.

Lemma unplaceable_note_marker_witness :
  In Scenario.lowB (App.notes Scenario.payload)
  /\ App.inTimeWindow 1 Scenario.lowB = true
  /\ GuitarUtils.getPossiblePositions (App.pitch Scenario.lowB) = []
  /\ entryOf 2 false (App.resolveNote false 2 2 Scenario.lowB) = None.
Proof.
  assert (Hin : In Scenario.lowB (App.notes Scenario.payload))
    by (right; right; right; left; reflexivity).
  assert (Hw : App.inTimeWindow 1 Scenario.lowB = true) by reflexivity.
  assert (Hnil : GuitarUtils.getPossiblePositions (App.pitch Scenario.lowB) = [])
    by reflexivity.
  pose proof (unplaceable_note_marker Scenario.payload 1 false 2 false Scenario.lowB
                Hin Hw Hnil) as H.
  cbv zeta in H. destruct H as (_ & Hdrop & _).
  split; [exact Hin|]. split; [exact Hw|]. split; [exact Hnil|].
  exact (Hdrop eq_refl).
Defined.

(** C5 as stated fails on a note with an explicit pair: the mapper has no
    position for pitch 88, yet in automatic and in manual mode the note is
    stored at (5, 24) and its marker is drawn. *)
Lemma unplaceable_explicit_note_is_rendered :
  In Scenario.e7 (App.notes Scenario.payload)
  /\ App.inTimeWindow 1 Scenario.e7 = true
  /\ GuitarUtils.getPossiblePositions (App.pitch Scenario.e7) = []
  /\ (forall isAutoHand : bool,
        let centerFret := App.currentCenterFret (Some Scenario.payload) 1 isAutoHand 2 in
        currentActivePositions
          (App.activeNotes (Some Scenario.payload) 1 isAutoHand 2) centerFret false
          !! (5, 24)
        = Some {| note := Scenario.e7; isFading := false; fadeStartTime := None |})
  /\ drawsMarker {| note := Scenario.e7; isFading := false; fadeStartTime := None |} = true.
Proof.
  split; [right; right; left; reflexivity|].
  split; [reflexivity|]. split; [reflexivity|]. split; [|reflexivity].
  intros [|]; vm_compute; reflexivity.
Qed.

(** *** Marker bend *)

Lemma orZero_value (x : option Q) :
  (orZero x == match x with Some b => b | None => 0 end)%Q.
Proof.
  destruct x as [b|]; simpl; [|reflexivity].
  destruct (Qeq_bool b 0) eqn:E; [|reflexivity].
  apply Qeq_bool_iff in E. symmetry. exact E.
Qed.

(** A key that is out of the active positions and survives a
    reconciliation keeps its note record and is fading afterwards. *)
Lemma reconcile_inactive_keeps_note (prev active : gmap (Z * Z) Rendered)
    (markTime now : Z) (k : Z * Z) (r r' : Rendered) :
  prev !! k = Some r -> active !! k = None ->
  reconcile prev active markTime now !! k = Some r' ->
  note r' = note r /\ isFading r' = true.
Proof.
  intros Hp Ha. rewrite reconcile_lookup, Hp, Ha. unfold reconcileKey.
  destruct (isFading r) eqn:Ef.
  - destruct (fadeElapsed now r); intros H; inversion H; subst. auto.
  - destruct (fadeElapsed now (startFading r markTime)); intros H; inversion H; subst.
    auto.
Qed.

(** C9. The live bend value is the bend of a marker exactly when the entry
    is not fading; the bend of a fading entry is the [bend_value] of its own
    note record (0 when there is none), whatever the live value is, and so
    is the thresholded value derived from it; the record of a fading entry
    is the one the key held when it left the active positions. *)
Theorem dynamicBend_source (r : Rendered) (currentBend : Q) :
  (isFading r = false -> dynamicBend r currentBend = currentBend)
  /\ (isFading r = true ->
      (dynamicBend r currentBend
       == match App.bend_value (note r) with Some b => b | None => 0 end)%Q
      /\ forall liveBend : Q,
           dynamicBend r liveBend = dynamicBend r currentBend
           /\ bendVal r liveBend = bendVal r currentBend)
  /\ (forall (prev active : gmap (Z * Z) Rendered) (markTime now : Z) (k : Z * Z)
             (r' : Rendered),
        prev !! k = Some r -> active !! k = None ->
        reconcile prev active markTime now !! k = Some r' ->
        isFading r' = true /\ App.bend_value (note r') = App.bend_value (note r)).
Proof.
  split; [|split].
  - intros Hf. unfold dynamicBend. rewrite Hf. reflexivity.
  - intros Hf. unfold bendVal, dynamicBend. rewrite Hf. simpl.
    split; [apply orZero_value | intros liveBend; split; reflexivity].
  - intros prev active markTime now k r' Hp Ha Hr.
    destruct (reconcile_inactive_keeps_note _ _ _ _ _ _ _ Hp Ha Hr) as [Hn Hf].
    rewrite Hn. auto.
Qed.

Lemma dynamicBend_source_witness :
  (dynamicBend Scenario.fadingC4 (3 # 10) == 1 # 2)%Q.
Proof.
  exact (proj1 (proj1 (proj2 (dynamicBend_source Scenario.fadingC4 (3 # 10))) eq_refl)).
Defined.

(** *** The three kinds of step *)

Lemma step_Wait (c c1 : Component) (d : Z) :
  step c (Wait d) = Some c1 ->
  0 <= d
  /\ (forall f, interval c = Some f -> clock c + d <= f)
  /\ renderedNotes c1 = renderedNotes c
  /\ interval c1 = interval c
  /\ clock c1 = clock c + d.
Proof.
  cbn [step]. destruct (0 <=? d) eqn:Hd; [|discriminate]. simpl.
  apply Z.leb_le in Hd.
  destruct (interval c) as [f|] eqn:Hi.
  - destruct (clock c + d <=? f) eqn:Hf; [|discriminate].
    apply Z.leb_le in Hf. intros H. inversion H; subst; simpl.
    repeat split; auto. intros f' Hf'. inversion Hf'; subst. exact Hf.
  - intros H. inversion H; subst; simpl. repeat split; auto. discriminate.
Qed.

Lemma step_Props (c c1 : Component) (ns : list App.Note) (cf : Z) (fl : bool) :
  step c (Props ns cf fl) = Some c1 ->
  renderedNotes c1
  = reconcile (renderedNotes c) (currentActivePositions ns cf fl) (clock c) (clock c)
  /\ interval c1 = sweepEffect (renderedNotes c1) (clock c)
  /\ clock c1 = clock c.
Proof. cbn [step]. intros H. inversion H; subst; simpl. auto. Qed.

Lemma step_IntervalFires (c c1 : Component) :
  step c IntervalFires = Some c1 ->
  interval c = Some (clock c)
  /\ renderedNotes c1 = (sweep (renderedNotes c) (clock c)).1
  /\ interval c1
     = (if (sweep (renderedNotes c) (clock c)).2
        then sweepEffect (renderedNotes c1) (clock c)
        else Some (clock c + 100))
  /\ clock c1 = clock c.
Proof.
  cbn [step]. destruct (interval c) as [f|]; [|discriminate].
  destruct (Z.eqb_spec f (clock c)) as [->|]; [|discriminate].
  destruct (sweep (renderedNotes c) (clock c)) as [next changed].
  intros H. inversion H; subst; simpl. auto.
Qed.

(** *** Keys that stay active *)

Lemma reconcile_active (prev : gmap (Z * Z) Rendered) (ns : list App.Note) (cf : Z)
    (fl : bool) (markTime now : Z) (k : Z * Z) (a : Rendered) :
  currentActivePositions ns cf fl !! k = Some a ->
  reconcile prev (currentActivePositions ns cf fl) markTime now !! k
  = Some {| note := note a; isFading := false; fadeStartTime := None |}.
Proof.
  intros Ha. rewrite reconcile_lookup, Ha.
  destruct (currentActivePositions_fresh _ _ _ _ _ Ha) as [_ Hs].
  unfold reconcileKey, keepActive, fadeElapsed. simpl. rewrite Hs. reflexivity.
Qed.

(** While a key stays among the active positions, no event removes it or
    makes it fade. *)
Lemma run_staysActive (k : Z * Z) (events : list Event) (c c' : Component) (r : Rendered) :
  staysActive k events ->
  renderedNotes c !! k = Some r -> isFading r = false -> fadeStartTime r = None ->
  run c events = Some c' ->
  exists r', renderedNotes c' !! k = Some r' /\ isFading r' = false /\ fadeStartTime r' = None.
Proof.
  revert c r. induction events as [|e events IH]; intros c r Hact Hk Hf Hs Hrun.
  - simpl in Hrun. inversion Hrun; subst. eauto.
  - apply List.Forall_cons_iff in Hact. destruct Hact as [He Hact].
    cbn [run] in Hrun. destruct (step c e) as [c1|] eqn:Hstep; [|discriminate].
    destruct e as [d | ns cf fl | ].
    + apply step_Wait in Hstep. destruct Hstep as (_ & _ & Hr & _).
      refine (IH c1 r Hact _ Hf Hs Hrun). rewrite Hr. exact Hk.
    + destruct He as [a Ha].
      apply step_Props in Hstep. destruct Hstep as (Hr & _).
      refine (IH c1 _ Hact _ _ _ Hrun).
      * rewrite Hr. apply (reconcile_active _ _ _ _ _ _ _ _ Ha).
      * reflexivity.
      * reflexivity.
    + apply step_IntervalFires in Hstep. destruct Hstep as (_ & Hr & _).
      refine (IH c1 r Hact _ Hf Hs Hrun).
      rewrite Hr, sweep_lookup, Hk. unfold fadeElapsed. rewrite Hf. reflexivity.
Qed.

(** C4. When a key reappears among the active positions at a
    reconciliation, then whatever entry it had before (fading since any
    time, or none), the reconciled map holds the key with [isFading]
    cleared and without a fade time stamp; and for as long as the key stays
    among the active positions, neither a reconciliation nor a sweep
    removes it. *)
Theorem reappearing_key_is_resurrected (c c' : Component) (activeNotes : list App.Note)
    (centerFret : Z) (filterOutOfRange : bool) (k : Z * Z) (a : Rendered)
    (events : list Event) :
  currentActivePositions activeNotes centerFret filterOutOfRange !! k = Some a ->
  staysActive k events ->
  run c (Props activeNotes centerFret filterOutOfRange :: events) = Some c' ->
  (forall (prev : gmap (Z * Z) Rendered) (markTime now : Z),
      reconcile prev (currentActivePositions activeNotes centerFret filterOutOfRange)
        markTime now !! k
      = Some {| note := note a; isFading := false; fadeStartTime := None |})
  /\ (exists c1, step c (Props activeNotes centerFret filterOutOfRange) = Some c1
                 /\ renderedNotes c1 !! k
                    = Some {| note := note a; isFading := false; fadeStartTime := None |})
  /\ (exists r', renderedNotes c' !! k = Some r'
                 /\ isFading r' = false /\ fadeStartTime r' = None).
Proof.
  intros Ha Hact Hrun. split; [|split].
  - intros prev markTime now. apply (reconcile_active _ _ _ _ _ _ _ _ Ha).
  - eexists. split; [reflexivity|]. simpl. apply (reconcile_active _ _ _ _ _ _ _ _ Ha).
  - cbn [run] in Hrun.
    destruct (step c (Props activeNotes centerFret filterOutOfRange)) as [c1|] eqn:Hstep;
      [|discriminate].
    apply step_Props in Hstep. destruct Hstep as (Hr & _).
    refine (run_staysActive k events c1 c' _ Hact _ _ _ Hrun).
    + rewrite Hr. apply (reconcile_active _ _ _ _ _ _ _ _ Ha).
    + reflexivity.
    + reflexivity.
Qed.

Lemma reappearing_key_is_resurrected_witness :
  exists c',
    run Scenario.fadingA4
      [Props Scenario.playing 3 false; Wait 700; Props Scenario.playing 3 false] = Some c'
    /\ exists r', renderedNotes c' !! (3, 2) = Some r'
                  /\ isFading r' = false /\ fadeStartTime r' = None.
Proof.
  assert (Ha : currentActivePositions Scenario.playing 3 false !! (3, 2)
               = Some {| note := App.resolveNote true 3 2 Scenario.a4;
                         isFading := false; fadeStartTime := None |})
    by (vm_compute; reflexivity).
  assert (Hact : staysActive (3, 2) [Wait 700; Props Scenario.playing 3 false]).
  { constructor; [exact I|]. constructor; [|constructor]. eexists. exact Ha. }
  destruct (run Scenario.fadingA4
              [Props Scenario.playing 3 false; Wait 700; Props Scenario.playing 3 false])
    as [c'|] eqn:Hrun; [|vm_compute in Hrun; discriminate].
  exists c'. split; [reflexivity|].
  exact (proj2 (proj2 (reappearing_key_is_resurrected _ _ _ _ _ _ _ _ Ha Hact Hrun))).
Defined.

(** *** The fade window *)

Lemma sweepEffect_scheduled (m : gmap (Z * Z) Rendered) (t : Z) :
  (is_Some (sweepEffect m t) <-> hasFading m = true)
  /\ (forall f, sweepEffect m t = Some f -> f = t + 100).
Proof.
  unfold sweepEffect. destruct (hasFading m); split.
  - split; eauto.
  - intros f H. inversion H. reflexivity.
  - split; [intros [x Hx]; discriminate | discriminate].
  - discriminate.
Qed.

Lemma sweep_unchanged (prev : gmap (Z * Z) Rendered) (now : Z) :
  (sweep prev now).2 = false -> (sweep prev now).1 = prev.
Proof. unfold sweep. simpl. intros ->. reflexivity. Qed.

Lemma step_sweepScheduled (c c1 : Component) (e : Event) :
  sweepScheduled c -> step c e = Some c1 -> sweepScheduled c1.
Proof.
  intros [Hiff Hle] Hstep. destruct e as [d | ns cf fl | ].
  - apply step_Wait in Hstep. destruct Hstep as (Hd & Hf & Hr & Hi & Hc).
    unfold sweepScheduled. rewrite Hr, Hi, Hc. split; [exact Hiff|].
    intros f Hsome. apply Hf. exact Hsome.
  - apply step_Props in Hstep. destruct Hstep as (_ & Hi & Hc).
    unfold sweepScheduled. rewrite Hi, Hc.
    destruct (sweepEffect_scheduled (renderedNotes c1) (clock c)) as [H1 H2].
    split; [exact H1|]. intros f Hf. apply H2 in Hf. lia.
  - apply step_IntervalFires in Hstep. destruct Hstep as (Hfire & Hr & Hi & Hc).
    unfold sweepScheduled. rewrite Hi, Hc.
    destruct (sweep (renderedNotes c) (clock c)).2 eqn:Hch.
    + destruct (sweepEffect_scheduled (renderedNotes c1) (clock c)) as [H1 H2].
      split; [exact H1|]. intros f Hf. apply H2 in Hf. lia.
    + rewrite Hr, (sweep_unchanged _ _ Hch). split.
      * split; [intros _; apply Hiff; rewrite Hfire; eauto | eauto].
      * intros f Hf. inversion Hf. lia.
Qed.

Lemma fadeElapsed_fading (now t0 : Z) (r : Rendered) :
  isFading r = true -> fadeStartTime r = Some t0 ->
  fadeElapsed now r = (500 <? now - t0).
Proof. intros Hf Hs. unfold fadeElapsed. rewrite Hf, Hs. reflexivity. Qed.

Lemma step_fadeWindow (k : Z * Z) (t0 : Z) (c c1 : Component) (e : Event) :
  staysInactive k [e] ->
  sweepScheduled c -> fadeWindow k t0 c ->
  step c e = Some c1 ->
  fadeWindow k t0 c1.
Proof.
  intros Hin Hsched Hwin Hstep.
  pose proof (step_sweepScheduled _ _ _ Hsched Hstep) as [Hiff1 _].
  apply List.Forall_cons_iff in Hin. destruct Hin as [Hin _].
  unfold fadeWindow in *. destruct e as [d | ns cf fl | ].
  - apply step_Wait in Hstep. destruct Hstep as (Hd & _ & Hr & Hi & Hc).
    rewrite Hr, Hi, Hc. destruct (renderedNotes c !! k); [exact Hwin | lia].
  - apply step_Props in Hstep. destruct Hstep as (Hr & Hi & Hc).
    rewrite Hc.
    assert (Hk : renderedNotes c1 !! k
                 = reconcileKey (renderedNotes c !! k) None (clock c) (clock c)).
    { rewrite Hr, reconcile_lookup, Hin. reflexivity. }
    destruct (renderedNotes c !! k) as [r|].
    + destruct Hwin as (Hf & Hs & _).
      unfold reconcileKey in Hk. rewrite Hf in Hk.
      rewrite (fadeElapsed_fading _ _ _ Hf Hs) in Hk.
      destruct (Z.ltb_spec 500 (clock c - t0)) as [Hlt|Hge]; rewrite Hk; [lia|].
      split; [exact Hf|]. split; [exact Hs|].
      assert (Hhas : hasFading (renderedNotes c1) = true)
        by (apply hasFading_true; eauto).
      rewrite Hi. unfold sweepEffect. rewrite Hhas. eexists. split; [reflexivity | lia].
    + simpl in Hk. rewrite Hk. exact Hwin.
  - apply step_IntervalFires in Hstep. destruct Hstep as (Hfire & Hr & Hi & Hc).
    rewrite Hc.
    assert (Hk : renderedNotes c1 !! k
                 = match renderedNotes c !! k with
                   | Some r => if fadeElapsed (clock c) r then None else Some r
                   | None => None
                   end).
    { rewrite Hr. apply sweep_lookup. }
    destruct (renderedNotes c !! k) as [r|].
    + destruct Hwin as (Hf & Hs & _).
      rewrite (fadeElapsed_fading _ _ _ Hf Hs) in Hk.
      destruct (Z.ltb_spec 500 (clock c - t0)) as [Hlt|Hge]; rewrite Hk; [lia|].
      split; [exact Hf|]. split; [exact Hs|].
      assert (Hhas : hasFading (renderedNotes c1) = true)
        by (apply hasFading_true; eauto).
      rewrite Hi. unfold sweepEffect. rewrite Hhas.
      destruct (sweep (renderedNotes c) (clock c)).2;
        (eexists; split; [reflexivity | lia]).
    + rewrite Hk. exact Hwin.
Qed.

Lemma run_fadeWindow (k : Z * Z) (t0 : Z) (events : list Event) (c c' : Component) :
  staysInactive k events ->
  sweepScheduled c -> fadeWindow k t0 c ->
  run c events = Some c' ->
  sweepScheduled c' /\ fadeWindow k t0 c'.
Proof.
  revert c. induction events as [|e events IH]; intros c Hin Hsched Hwin Hrun.
  - simpl in Hrun. inversion Hrun; subst. auto.
  - apply List.Forall_cons_iff in Hin. destruct Hin as [He Hin].
    cbn [run] in Hrun. destruct (step c e) as [c1|] eqn:Hstep; [|discriminate].
    apply (IH c1 Hin).
    + apply (step_sweepScheduled _ _ _ Hsched Hstep).
    + apply (step_fadeWindow k t0 c c1 e); auto. constructor; [exact He | constructor].
    + exact Hrun.
Qed.

(** The reconciliation at which an active key leaves the active positions
    opens its fade window at the current clock reading. *)
Lemma leaving_opens_fadeWindow (k : Z * Z) (c c1 : Component) (r : Rendered)
    (ns : list App.Note) (cf : Z) (fl : bool) :
  renderedNotes c !! k = Some r -> isFading r = false ->
  currentActivePositions ns cf fl !! k = None ->
  step c (Props ns cf fl) = Some c1 ->
  sweepScheduled c1 /\ fadeWindow k (clock c) c1
  /\ renderedNotes c1 !! k = Some (startFading r (clock c)).
Proof.
  intros Hk Hf Hin Hstep. apply step_Props in Hstep. destruct Hstep as (Hr & Hi & Hc).
  assert (Hk1 : renderedNotes c1 !! k = Some (startFading r (clock c))).
  { rewrite Hr, reconcile_lookup, Hk, Hin. unfold reconcileKey. rewrite Hf.
    unfold fadeElapsed, startFading. simpl.
    destruct (Z.ltb_spec 500 (clock c - clock c)); [lia | reflexivity]. }
  assert (Hhas : hasFading (renderedNotes c1) = true).
  { apply hasFading_true. exists k, (startFading r (clock c)). auto. }
  split; [|split; [|exact Hk1]].
  - unfold sweepScheduled. rewrite Hi, Hc. unfold sweepEffect. rewrite Hhas.
    split; [split; eauto|]. intros f H. inversion H. lia.
  - unfold fadeWindow. rewrite Hk1. simpl. split; [reflexivity|]. split; [reflexivity|].
    rewrite Hi. unfold sweepEffect. rewrite Hhas. eexists. split; [reflexivity | lia].
Qed.

(** *** Time passes: the sweep keeps running while the parent is idle *)

Lemma step_Wait_enabled (c : Component) (d : Z) :
  0 <= d -> (forall f, interval c = Some f -> clock c + d <= f) ->
  exists c1, step c (Wait d) = Some c1.
Proof.
  intros Hd Hf. cbn [step].
  destruct (Z.leb_spec 0 d); [|lia]. simpl.
  destruct (interval c) as [f|]; [|eauto].
  destruct (Z.leb_spec (clock c + d) f) as [_|Hlt]; [eauto|].
  specialize (Hf f eq_refl). lia.
Qed.

Lemma step_IntervalFires_enabled (c : Component) :
  interval c = Some (clock c) -> exists c1, step c IntervalFires = Some c1.
Proof.
  intros Hi. cbn [step]. rewrite Hi, Z.eqb_refl.
  destruct (sweep (renderedNotes c) (clock c)). eauto.
Qed.

(** Waiting up to a time that no scheduled firing precedes. *)
Lemma wait_until (c : Component) (target : Z) :
  clock c <= target ->
  (forall f, interval c = Some f -> target <= f) ->
  exists c1, step c (Wait (target - clock c)) = Some c1
             /\ clock c1 = target /\ interval c1 = interval c.
Proof.
  intros Hct Hf.
  destruct (step_Wait_enabled c (target - clock c)) as [c1 Hstep]; [lia | |].
  - intros f Hi. specialize (Hf f Hi). lia.
  - exists c1. split; [exact Hstep|].
    apply step_Wait in Hstep. destruct Hstep as (_ & _ & _ & Hi & Hc).
    split; [lia | exact Hi].
Qed.

(** With no new props, any later wall-clock time is reached: the clock
    advances up to the next firing of the interval, the interval fires, and
    so on. *)
Lemma idle_reaches (n : nat) (c : Component) (target : Z) :
  sweepScheduled c ->
  clock c <= target ->
  (forall f, interval c = Some f -> target - f < 100 * Z.of_nat n) ->
  exists (events : list Event) (c' : Component),
    idle events /\ run c events = Some c' /\ clock c' = target.
Proof.
  assert (Hdirect : forall c : Component,
             clock c <= target ->
             (forall f, interval c = Some f -> target <= f) ->
             exists (events : list Event) (c' : Component),
               idle events /\ run c events = Some c' /\ clock c' = target).
  { intros c0 Hct Hf. destruct (wait_until c0 target Hct Hf) as (c1 & Hstep & Hc & _).
    exists [Wait (target - clock c0)], c1.
    split; [constructor; [exact I | constructor]|].
    cbn [run]. rewrite Hstep. auto. }
  revert c. induction n as [|n IH]; intros c Hsched Hct Hbound.
  - apply Hdirect; [exact Hct|]. intros f Hi. specialize (Hbound f Hi). lia.
  - destruct (interval c) as [f|] eqn:Hi;
      [|apply Hdirect; [exact Hct | intros f Hf; rewrite Hi in Hf; discriminate]].
    destruct (Z.le_gt_cases target f) as [Hle|Hgt].
    { apply Hdirect; [exact Hct|]. intros f' Hf'. rewrite Hi in Hf'.
      inversion Hf'; subst. exact Hle. }
    pose proof (proj2 Hsched f Hi) as Hcf.
    destruct (wait_until c f Hcf) as (c1 & Hstep1 & Hc1 & Hi1).
    { intros f' Hf'. rewrite Hi in Hf'. inversion Hf'; subst. lia. }
    pose proof (step_sweepScheduled _ _ _ Hsched Hstep1) as Hsched1.
    assert (Hfire : interval c1 = Some (clock c1)) by (rewrite Hi1, Hi, Hc1; reflexivity).
    destruct (step_IntervalFires_enabled c1 Hfire) as [c2 Hstep2].
    pose proof (step_sweepScheduled _ _ _ Hsched1 Hstep2) as Hsched2.
    pose proof (step_IntervalFires _ _ Hstep2) as (_ & _ & Hi2 & Hc2).
    destruct (IH c2 Hsched2) as (events & c' & Hidle & Hrun & Hc').
    + lia.
    + intros f2 Hf2. rewrite Hi2 in Hf2.
      assert (f2 = clock c1 + 100).
      { destruct (sweep (renderedNotes c1) (clock c1)).2.
        - apply (proj2 (sweepEffect_scheduled _ _)) in Hf2. exact Hf2.
        - inversion Hf2. reflexivity. }
      specialize (Hbound f eq_refl). lia.
    + exists (Wait (f - clock c) :: IntervalFires :: events), c'.
      split; [constructor; [exact I | constructor; [exact I | exact Hidle]]|].
      cbn [run]. rewrite Hstep1, Hstep2. auto.
Qed.

Lemma idle_staysInactive (k : Z * Z) (events : list Event) :
  idle events -> staysInactive k events.
Proof.
  unfold idle, staysInactive. intros H. eapply List.Forall_impl; [|exact H].
  intros [d | ns cf fl | ]; simpl; tauto.
Qed.

(** C3. Both the reconciliation and the sweep delete every entry whose fade
    started more than 500 ms ago and leave no such entry behind, and a
    reconciliation removes a key it found only under that test.  For a key
    that is active and leaves the active positions at wall-clock time [t0]
    and stays out: the sweep interval is set iff some entry is fading (100 ms
    after the last change of [renderedNotes]); the key is still present,
    fading since [t0], in every state up to [t0 + 500]; it is present in no
    state after [t0 + 600]; and with no further props the component does
    reach every later time, so the key is removed at some time in
    (t0 + 500, t0 + 600]. *)
Theorem fade_removal_window :
  (forall (prev active : gmap (Z * Z) Rendered) (markTime now : Z) (k : Z * Z) (r : Rendered),
      reconcile prev active markTime now !! k = Some r -> fadeElapsed now r = false)
  /\ (forall (prev : gmap (Z * Z) Rendered) (now : Z) (k : Z * Z) (r : Rendered),
        (sweep prev now).1 !! k = Some r -> fadeElapsed now r = false)
  /\ (forall (prev active : gmap (Z * Z) Rendered) (markTime now : Z) (k : Z * Z)
             (r : Rendered),
        prev !! k = Some r ->
        reconcile prev active markTime now !! k = None ->
        active !! k = None
        /\ exists t0, (if isFading r then fadeStartTime r else Some markTime) = Some t0
                      /\ 500 < now - t0)
  /\ (forall (c c' : Component) (k : Z * Z) (r : Rendered)
             (activeNotes : list App.Note) (centerFret : Z) (filterOutOfRange : bool)
             (events : list Event),
        renderedNotes c !! k = Some r -> isFading r = false ->
        currentActivePositions activeNotes centerFret filterOutOfRange !! k = None ->
        staysInactive k events ->
        run c (Props activeNotes centerFret filterOutOfRange :: events) = Some c' ->
        (is_Some (interval c') <-> hasFading (renderedNotes c') = true)
        /\ (clock c' <= clock c + 500 ->
            exists r', renderedNotes c' !! k = Some r'
                       /\ isFading r' = true /\ fadeStartTime r' = Some (clock c))
        /\ (renderedNotes c' !! k = None -> clock c + 500 < clock c')
        /\ (is_Some (renderedNotes c' !! k) -> clock c' <= clock c + 600)
        /\ (forall target : Z,
              clock c' <= target ->
              exists (later : list Event) (c'' : Component),
                idle later /\ run c' later = Some c'' /\ clock c'' = target
                /\ (clock c + 600 < target -> renderedNotes c'' !! k = None))).
Proof.
  split; [|split; [|split]].
  - intros prev active markTime now k r. rewrite reconcile_lookup. unfold reconcileKey.
    destruct (active !! k) as [a|]; [|destruct (prev !! k) as [p|]]; try discriminate.
    + destruct (fadeElapsed now (keepActive a)) eqn:E; intros H; inversion H; subst.
      exact E.
    + destruct (fadeElapsed now (if isFading p then p else startFading p markTime)) eqn:E;
        intros H; inversion H; subst. exact E.
  - intros prev now k r. rewrite sweep_lookup.
    destruct (prev !! k) as [p|]; [|discriminate].
    destruct (fadeElapsed now p) eqn:E; intros H; inversion H; subst. exact E.
  - intros prev active markTime now k r Hp. rewrite reconcile_lookup, Hp.
    unfold reconcileKey, keepActive, fadeElapsed.
    destruct (active !! k) as [a|]; simpl; intros H; [discriminate|].
    split; [reflexivity|].
    destruct (isFading r) eqn:Hf.
    + rewrite Hf in H. simpl in H. destruct (fadeStartTime r) as [t0|]; [|discriminate].
      destruct (Z.ltb_spec 500 (now - t0)); [eauto | discriminate].
    + simpl in H. destruct (Z.ltb_spec 500 (now - markTime)); [eauto | discriminate].
  - intros c c' k r ns cf fl events Hk Hf Hin Hstay Hrun.
    cbn [run] in Hrun.
    destruct (step c (Props ns cf fl)) as [c1|] eqn:Hstep; [|discriminate].
    destruct (leaving_opens_fadeWindow _ _ _ _ _ _ _ Hk Hf Hin Hstep) as (Hs1 & Hw1 & _).
    destruct (run_fadeWindow k (clock c) events c1 c' Hstay Hs1 Hw1 Hrun) as [Hs' Hw'].
    split; [exact (proj1 Hs')|].
    assert (Hpresent : is_Some (renderedNotes c' !! k) -> clock c' <= clock c + 600).
    { intros [r' Hr']. unfold fadeWindow in Hw'. rewrite Hr' in Hw'.
      destruct Hw' as (_ & _ & f & Hi & Hle).
      pose proof (proj2 Hs' f Hi). lia. }
    split; [|split; [|split; [exact Hpresent|]]].
    + intros Hle. unfold fadeWindow in Hw'.
      destruct (renderedNotes c' !! k) as [r'|]; [|lia].
      exists r'. tauto.
    + intros Hnone. unfold fadeWindow in Hw'. rewrite Hnone in Hw'. exact Hw'.
    + intros target Htarget.
      assert (Hn : exists n : nat,
                 forall f, interval c' = Some f -> target - f < 100 * Z.of_nat n).
      { exists (Z.to_nat (target - clock c') + 1)%nat. intros f Hi.
        pose proof (proj2 Hs' f Hi). lia. }
      destruct Hn as [n Hn].
      destruct (idle_reaches n c' target Hs' Htarget Hn) as (later & c'' & Hidle & Hrun' & Hc'').
      exists later, c''. split; [exact Hidle|]. split; [exact Hrun'|]. split; [exact Hc''|].
      intros Hlate.
      destruct (run_fadeWindow k (clock c) later c' c''
                  (idle_staysInactive k later Hidle) Hs' Hw' Hrun') as [Hs'' Hw''].
      unfold fadeWindow in Hw''.
      destruct (renderedNotes c'' !! k) as [r''|]; [|reflexivity].
      destruct Hw'' as (_ & _ & f & Hi & Hle).
      pose proof (proj2 Hs'' f Hi). lia.
Qed.

(** The marker of [a4] leaves the active positions at time 1000 and the
    parent goes idle: after five sweeps, at 1500, it is still there; the
    sixth sweep, at 1600, removes it. *)
Lemma fade_removal_window_witness :
  (exists c5,
      run Scenario.showingA4 (Props [] 3 false :: Scenario.sweepRounds 5) = Some c5
      /\ clock c5 = 1500
      /\ exists r', renderedNotes c5 !! (3, 2) = Some r'
                    /\ isFading r' = true /\ fadeStartTime r' = Some 1000)
  /\ (exists c6,
        run Scenario.showingA4 (Props [] 3 false :: Scenario.sweepRounds 6) = Some c6
        /\ renderedNotes c6 !! (3, 2) = None
        /\ 1000 + 500 < clock c6 <= 1000 + 600).
Proof.
  assert (Hk : renderedNotes Scenario.showingA4 !! (3, 2)
               = Some {| note := App.resolveNote true 3 2 Scenario.a4;
                         isFading := false; fadeStartTime := None |})
    by (vm_compute; reflexivity).
  assert (Hin : currentActivePositions [] 3 false !! (3, 2) = None)
    by (vm_compute; reflexivity).
  assert (Hstay : forall n, staysInactive (3, 2) (Scenario.sweepRounds n)).
  { induction n as [|n IH]; simpl; [constructor|].
    constructor; [exact I|]. constructor; [exact I | exact IH]. }
  split.
  - destruct (run Scenario.showingA4 (Props [] 3 false :: Scenario.sweepRounds 5))
      as [c5|] eqn:Hrun; [|vm_compute in Hrun; discriminate].
    exists c5. split; [reflexivity|].
    assert (Hc : clock c5 = 1500).
    { vm_compute in Hrun. inversion Hrun. reflexivity. }
    split; [exact Hc|].
    apply (proj1 (proj2 (proj2 (proj2 (proj2 fade_removal_window))
                   _ _ _ _ _ _ _ _ Hk eq_refl Hin (Hstay 5%nat) Hrun))).
    rewrite Hc. vm_compute. discriminate.
  - destruct (run Scenario.showingA4 (Props [] 3 false :: Scenario.sweepRounds 6))
      as [c6|] eqn:Hrun; [|vm_compute in Hrun; discriminate].
    exists c6. split; [reflexivity|].
    assert (Hgone : renderedNotes c6 !! (3, 2) = None).
    { vm_compute in Hrun. inversion Hrun. vm_compute. reflexivity. }
    split; [exact Hgone|]. split.
    + apply (proj1 (proj2 (proj2 (proj2 (proj2 (proj2 fade_removal_window))
                     _ _ _ _ _ _ _ _ Hk eq_refl Hin (Hstay 6%nat) Hrun)))).
      exact Hgone.
    + vm_compute in Hrun. inversion Hrun. vm_compute. discriminate.
Defined.

End FretboardFacts.

(* ===================================================================== *)
(** ** More about utils/guitarUtils *)
(* ===================================================================== *)

Section GuitarUtilsRange.
Import GuitarUtils.

Lemma reachable_range (p : Z) : reachable p <-> 40 <= p <= 86.
Proof.
  unfold reachable, playableOn, TUNING. split.
  - intros (i & o & Hi & Hr).
    do 6 (destruct i as [|i]; [inversion Hi; subst; lia|]). discriminate.
  - intros Hp.
    destruct (Z.le_gt_cases p 62); [exists 0%nat, 40; split; [reflexivity | lia]|].
    destruct (Z.le_gt_cases p 67); [exists 1%nat, 45; split; [reflexivity | lia]|].
    destruct (Z.le_gt_cases p 72); [exists 2%nat, 50; split; [reflexivity | lia]|].
    destruct (Z.le_gt_cases p 77); [exists 3%nat, 55; split; [reflexivity | lia]|].
    destruct (Z.le_gt_cases p 81); [exists 4%nat, 59; split; [reflexivity | lia]|].
    exists 5%nat, 64. split; [reflexivity | lia].
Qed.

(** X1. The instrument's range: a pitch has a position iff it lies between
    MIDI 40 and 86, no pitch has more than five positions, and every
    position returned sounds the pitch asked for on its string. *)
Theorem playable_range (p : Z) :
  (getPossiblePositions p <> [] <-> 40 <= p <= 86)
  /\ (length (getPossiblePositions p) <= 5)%nat
  /\ (forall pos : Note,
        In pos (getPossiblePositions p) ->
        exists openPitch,
          TUNING !! Z.to_nat (string pos) = Some openPitch
          /\ openPitch + fret pos = p /\ pitch pos = p).
Proof.
  split; [|split].
  - rewrite <- reachable_range. rewrite getPossiblePositions_nil.
    split; [|tauto]. intros H. destruct (Z.le_gt_cases 40 p), (Z.le_gt_cases p 86);
      try (apply reachable_range; lia); exfalso; apply H; rewrite reachable_range; lia.
  - unfold getPossiblePositions, TUNING. cbn [forEachString]. cbv zeta. unfold MAX_FRET.
    destruct (Z.leb_spec 0 (p - 40)); destruct (Z.leb_spec (p - 40) 22);
      destruct (Z.leb_spec 0 (p - 64)); destruct (Z.leb_spec (p - 64) 22);
      try lia; cbn [andb];
      repeat match goal with
             | |- context [if ?b then _ else _] => destruct b
             end; simpl; lia.
  - intros pos Hpos. apply getPossiblePositions_In in Hpos.
    destruct Hpos as (i & _ & _ & o & Hi & ->). simpl.
    exists o. rewrite Nat2Z.id. split; [exact Hi|]. split; [lia | reflexivity].
Qed.

(** What [getBestPosition] returns is a candidate at least as close to [c]
    as every other. *)
Lemma getBestPosition_nearest (p c : Z) (best : Note) :
  getBestPosition p c = Some best ->
  In best (getPossiblePositions p)
  /\ forall q, In q (getPossiblePositions p) -> dist c best <= dist c q.
Proof.
  unfold getBestPosition.
  pose proof (forEachString_sorted p 0 TUNING) as Hsorted.
  fold (getPossiblePositions p) in Hsorted.
  destruct (getPossiblePositions p) as [|first rest]; [discriminate|].
  intros H. inversion H; subst.
  apply StronglySorted_inv in Hsorted. destruct Hsorted as [Hs Hfirst].
  destruct (fold_closer_least c rest first Hfirst Hs) as [Hmem Hmin].
  split; [exact Hmem|]. intros q Hq. apply (Hmin q Hq).
Qed.

(** Two positions of one pitch on the same fret are the same position. *)
Lemma positions_fret_inj (p : Z) (a b : Note) :
  In a (getPossiblePositions p) -> In b (getPossiblePositions p) ->
  fret a = fret b -> a = b.
Proof.
  rewrite !getPossiblePositions_In.
  intros (i & _ & _ & o & Hi & ->) (j & _ & _ & o' & Hj & ->). simpl. intros Hf.
  assert (o = o') by lia. subst o'.
  unfold TUNING in Hi, Hj.
  do 6 (destruct i as [|i]; [inversion Hi; subst;
        do 6 (destruct j as [|j]; [inversion Hj; subst; try reflexivity; try lia|]);
        discriminate|]).
  discriminate.
Qed.

(** X2. Moving the reference fret up the neck never moves the chosen fret
    of a pitch down, and a reference fret that is itself one of the pitch's
    frets selects that very position. *)
Theorem getBestPosition_follows_center :
  (forall (p c1 c2 : Z) (b1 b2 : Note),
      c1 <= c2 ->
      getBestPosition p c1 = Some b1 ->
      getBestPosition p c2 = Some b2 ->
      fret b1 <= fret b2)
  /\ (forall (p : Z) (q : Note),
        In q (getPossiblePositions p) ->
        getBestPosition p (fret q) = Some q).
Proof.
  split.
  - intros p c1 c2 b1 b2 Hc H1 H2.
    destruct (getBestPosition_nearest _ _ _ H1) as [Hin1 Hmin1].
    destruct (getBestPosition_nearest _ _ _ H2) as [Hin2 Hmin2].
    pose proof (Hmin1 b2 Hin2) as Ha. pose proof (Hmin2 b1 Hin1) as Hb.
    unfold dist in Ha, Hb.
    destruct (Z.le_gt_cases (fret b1) (fret b2)) as [Hle|Hgt]; [exact Hle|].
    assert (c1 = c2) by lia. subst c2.
    rewrite H1 in H2. inversion H2; subst. lia.
  - intros p q Hq.
    destruct (getBestPosition p (fret q)) as [b|] eqn:Hb.
    + destruct (getBestPosition_nearest _ _ _ Hb) as [Hin Hmin].
      pose proof (Hmin q Hq) as Hd. unfold dist in Hd.
      f_equal. apply (positions_fret_inj p); [exact Hin | exact Hq | lia].
    + unfold getBestPosition in Hb.
      destruct (getPossiblePositions p); [destruct Hq | discriminate].
Qed.

Lemma getBestPosition_follows_center_witness :
  exists b1 b2,
    getBestPosition 57 3 = Some b1 /\ getBestPosition 57 9 = Some b2
    /\ fret b1 <= fret b2.
Proof.
  exists {| string := 3; fret := 2; pitch := 57 |},
         {| string := 2; fret := 7; pitch := 57 |}.
  split; [reflexivity|]. split; [reflexivity|].
  apply (proj1 getBestPosition_follows_center 57 3 9); [lia | reflexivity | reflexivity].
Defined.

Lemma NOTE_NAMES_lookup_inj (a b : nat) :
  (a < 12)%nat -> (b < 12)%nat -> NOTE_NAMES !! a = NOTE_NAMES !! b -> a = b.
Proof.
  intros Ha Hb. unfold NOTE_NAMES.
  do 12 (destruct a as [|a];
         [do 12 (destruct b as [|b]; [try reflexivity; discriminate|]); lia|]).
  lia.
Qed.

(** X3. Every pitch from 0 up has a name, and two such pitches have the
    same name exactly when they differ by whole octaves; below 0 only the
    multiples of 12 have one (the remainder is negative otherwise and the
    table is read out of range). *)
Theorem getNoteName_pitch_class :
  (forall p : Z, 0 <= p -> is_Some (getNoteName p))
  /\ (forall p q : Z, 0 <= p -> 0 <= q ->
        (getNoteName p = getNoteName q <-> p mod 12 = q mod 12))
  /\ (forall p : Z, p < 0 -> (is_Some (getNoteName p) <-> (12 | p))).
Proof.
  assert (Hnn : forall p, 0 <= p ->
            getNoteName p = NOTE_NAMES !! Z.to_nat (p mod 12)
            /\ (Z.to_nat (p mod 12) < 12)%nat).
  { intros p Hp. unfold getNoteName. cbv zeta.
    rewrite Z.rem_mod_nonneg by lia.
    pose proof (Z.mod_pos_bound p 12 ltac:(lia)) as Hb.
    destruct (Z.leb_spec 0 (p mod 12)); [|lia]. split; [reflexivity | lia]. }
  split; [|split].
  - intros p Hp. destruct (Hnn p Hp) as [-> Hlt].
    apply lookup_lt_is_Some. exact Hlt.
  - intros p q Hp Hq. destruct (Hnn p Hp) as [-> Hlp]. destruct (Hnn q Hq) as [-> Hlq].
    pose proof (Z.mod_pos_bound p 12 ltac:(lia)).
    pose proof (Z.mod_pos_bound q 12 ltac:(lia)).
    split.
    + intros H1. apply NOTE_NAMES_lookup_inj in H1; [lia | exact Hlp | exact Hlq].
    + intros ->. reflexivity.
  - intros p Hp. rewrite <- (Z.rem_divide p 12) by lia.
    unfold getNoteName. cbv zeta.
    pose proof (Z.rem_nonpos p 12 ltac:(lia) ltac:(lia)) as Hr.
    destruct (Z.leb_spec 0 (Z.rem p 12)) as [H0|H0].
    + assert (Z.rem p 12 = 0) as -> by lia. split; [reflexivity | intros _; eexists; reflexivity].
    + split; [intros [x Hx]; discriminate | lia].
Qed.

Lemma getNoteName_pitch_class_witness :
  getNoteName 57 = getNoteName 69 /\ is_Some (getNoteName (-12)).
Proof.
  split.
  - apply (proj1 (proj2 getNoteName_pitch_class) 57 69); [lia | lia | reflexivity].
  - apply (proj2 (proj2 getNoteName_pitch_class) (-12)); [lia | exists (-1); reflexivity].
Defined.

End GuitarUtilsRange.

(* ===================================================================== *)
(** ** More about the derived state of App *)
(* ===================================================================== *)

Section AppLookups.
Import App.

Lemma filter_between {A : Type} (stamp : A -> Q) (t1 t2 : Q) (xs : list A) :
  (t1 <= t2)%Q ->
  (forall x, In x xs -> ~ ((t1 < stamp x)%Q /\ (stamp x <= t2)%Q)) ->
  List.filter (fun x => Qle_bool (stamp x) t1) xs
  = List.filter (fun x => Qle_bool (stamp x) t2) xs.
Proof.
  intros Ht Hgap. apply List.filter_ext_in. intros x Hx.
  destruct (Qle_bool (stamp x) t1) eqn:E1; destruct (Qle_bool (stamp x) t2) eqn:E2;
    try reflexivity; exfalso.
  - apply Qle_bool_iff in E1. apply not_true_iff_false in E2. apply E2.
    apply Qle_bool_iff. apply (Qle_trans _ t1); assumption.
  - apply Qle_bool_iff in E2. apply (Hgap x Hx). split; [|exact E2].
    apply Qnot_le_lt. intros Hle. apply Qle_bool_iff in Hle. congruence.
Qed.

(** X4. Both timing lookups are constant between samples: if no hand
    position (bend sample) has its time in the interval (t1, t2], the center
    fret (the bend) at [t2] is the one at [t1], whatever the order of the
    series. *)
Theorem lookups_constant_between_samples (r : AnalysisResult) (t1 t2 : Q)
    (manualCenterFret : Z) :
  (t1 <= t2)%Q ->
  ((forall p, In p (hand_positions r) -> ~ ((t1 < time p)%Q /\ (time p <= t2)%Q)) ->
   currentCenterFret (Some r) t1 true manualCenterFret
   = currentCenterFret (Some r) t2 true manualCenterFret)
  /\ ((forall bends b, pitch_bends r = Some bends -> In b bends ->
         ~ ((t1 < bend_time b)%Q /\ (bend_time b <= t2)%Q)) ->
      currentBend (Some r) t1 = currentBend (Some r) t2).
Proof.
  intros Ht. split.
  - intros Hgap. unfold currentCenterFret.
    rewrite (filter_between time t1 t2 _ Ht Hgap). reflexivity.
  - intros Hgap. unfold currentBend. destruct (pitch_bends r) as [bends|]; [|reflexivity].
    rewrite (filter_between bend_time t1 t2 bends Ht (fun b => Hgap bends b eq_refl)).
    reflexivity.
Qed.

Lemma lookups_constant_between_samples_witness :
  currentCenterFret (Some Scenario.payload) (1 # 2) true 2
  = currentCenterFret (Some Scenario.payload) (3 # 2) true 2.
Proof.
  apply (proj1 (lookups_constant_between_samples Scenario.payload (1 # 2) (3 # 2) 2
                  ltac:(discriminate))).
  intros p [<- | [<- | []]] [Hlt Hle]; simpl in *.
  - revert Hlt. unfold Qlt. simpl. lia.
  - revert Hle. unfold Qle. simpl. lia.
Defined.

Lemma sorted_before {A : Type} (R : A -> A -> Prop) (earlier : list A) (x : A) (later : list A) :
  StronglySorted R (earlier ++ x :: later) -> forall y, In y earlier -> R y x.
Proof.
  induction earlier as [|e earlier IH]; intros Hs y Hy; [destruct Hy|].
  simpl in Hs. apply StronglySorted_inv in Hs. destruct Hs as [Hs He].
  destruct Hy as [<- | Hy].
  - rewrite List.Forall_forall in He. apply He. apply in_or_app. right. left. reflexivity.
  - apply (IH Hs y Hy).
Qed.

(** On a series in ascending time order, the sample singled out by
    [LastAtOrBefore] is a most recent one among those at or before [t]. *)
Lemma LastAtOrBefore_latest {A : Type} (stamp : A -> Q) (t : Q) (xs : list A) (x : A) :
  StronglySorted (fun a b => (stamp a <= stamp b)%Q) xs ->
  LastAtOrBefore stamp t xs (Some x) ->
  In x xs /\ (stamp x <= t)%Q
  /\ forall y, In y xs -> (stamp y <= t)%Q -> (stamp y <= stamp x)%Q.
Proof.
  intros Hs H. inversion H as [|earlier x' later Hx Hlater Heq]; subst.
  split; [apply in_or_app; right; left; reflexivity|]. split; [exact Hx|].
  intros y Hy Hyt. apply in_app_or in Hy. destruct Hy as [Hy | [<- | Hy]].
  - apply (sorted_before _ _ _ _ Hs y Hy).
  - apply Qle_refl.
  - exfalso. apply (Hlater y Hy Hyt).
Qed.

(** X5. On hand positions in ascending time order, as the payload has them,
    the automatic center fret at [t] is that of a most recent sample: as
    soon as some sample lies at or before [t], the value is the
    [center_fret] of a sample at or before [t] that no other such sample is
    later than.  The same holds of the bend on ascending bend samples. *)
Theorem lookups_take_latest_sample (r : AnalysisResult) (t : Q) (manualCenterFret : Z) :
  (StronglySorted (fun a b => (time a <= time b)%Q) (hand_positions r) ->
   forall p, In p (hand_positions r) -> (time p <= t)%Q ->
     exists chosen,
       In chosen (hand_positions r) /\ (time chosen <= t)%Q
       /\ (forall q, In q (hand_positions r) -> (time q <= t)%Q ->
             (time q <= time chosen)%Q)
       /\ currentCenterFret (Some r) t true manualCenterFret = center_fret chosen)
  /\ (forall bends,
        pitch_bends r = Some bends ->
        StronglySorted (fun a b => (bend_time a <= bend_time b)%Q) bends ->
        forall b, In b bends -> (bend_time b <= t)%Q ->
          exists chosen,
            In chosen bends /\ (bend_time chosen <= t)%Q
            /\ (forall q, In q bends -> (bend_time q <= t)%Q ->
                  (bend_time q <= bend_time chosen)%Q)
            /\ currentBend (Some r) t = bend_pitch chosen).
Proof.
  split.
  - intros Hs p Hp Hpt.
    destruct (LastAtOrBefore_total time t (hand_positions r)) as [o Ho].
    destruct o as [x|].
    + destruct (LastAtOrBefore_latest _ _ _ _ Hs Ho) as (Hin & Hx & Hmax).
      exists x. split; [exact Hin|]. split; [exact Hx|]. split; [exact Hmax|].
      unfold currentCenterFret. rewrite (lastOrUndefined_filter time t _ _ Ho). reflexivity.
    + exfalso. inversion Ho as [xs Hnone|]; subst. apply (Hnone p Hp Hpt).
  - intros bends Hb Hs b Hin Hbt.
    destruct (LastAtOrBefore_total bend_time t bends) as [o Ho].
    destruct o as [x|].
    + destruct (LastAtOrBefore_latest _ _ _ _ Hs Ho) as (Hin' & Hx & Hmax).
      exists x. split; [exact Hin'|]. split; [exact Hx|]. split; [exact Hmax|].
      unfold currentBend. rewrite Hb.
      rewrite (lastOrUndefined_filter bend_time t _ _ Ho). reflexivity.
    + exfalso. inversion Ho as [xs Hnone|]; subst. apply (Hnone b Hin Hbt).
Qed.

Lemma lookups_take_latest_sample_witness :
  exists chosen,
    In chosen (hand_positions Scenario.payload) /\ (time chosen <= 5 # 2)%Q
    /\ (forall q, In q (hand_positions Scenario.payload) -> (time q <= 5 # 2)%Q ->
          (time q <= time chosen)%Q)
    /\ currentCenterFret (Some Scenario.payload) (5 # 2) true 2 = center_fret chosen.
Proof.
  apply (proj1 (lookups_take_latest_sample Scenario.payload (5 # 2) 2)
           ltac:(repeat constructor; discriminate)
           {| time := 0%Q; center_fret := 3 |}).
  - left. reflexivity.
  - discriminate.
Defined.

End AppLookups.

Section AppControls.
Import App.

(** A pitch in range that the resolver sends to the mapper comes back with a
    pair on the board that sounds it. *)
Lemma resolveNote_on_board (isAutoHand : bool) (centerFret manualCenterFret : Z)
    (n : Note) :
  isAutoHand = false \/ explicitFingering n = None ->
  40 <= pitch n <= 86 ->
  exists s f openPitch,
    explicitFingering (resolveNote isAutoHand centerFret manualCenterFret n) = Some (s, f)
    /\ 0 <= s <= 5 /\ 0 <= f <= 22
    /\ GuitarUtils.TUNING !! Z.to_nat s = Some openPitch
    /\ openPitch + f = pitch n.
Proof.
  intros Hcase Hrange.
  assert (Hcond : negb isAutoHand || isUndefined (string n) || isUndefined (fret n) = true).
  { destruct Hcase as [-> | He]; [reflexivity|].
    unfold explicitFingering in He.
    destruct (string n); [destruct (fret n); [discriminate|]|];
      simpl; rewrite ?orb_true_r; reflexivity. }
  unfold resolveNote. rewrite Hcond.
  destruct (GuitarUtils.getBestPosition (pitch n)
              (if isAutoHand then centerFret else manualCenterFret)) as [b|] eqn:Hb.
  - destruct (getBestPosition_nearest _ _ _ Hb) as [Hin _].
    apply getPossiblePositions_In in Hin.
    destruct Hin as (i & Hi & (o & Ho & Hr) & (o' & Ho' & ->)).
    assert (o' = o) by congruence. subst o'.
    exists (Z.of_nat i), (pitch n - o), o. unfold explicitFingering. simpl.
    rewrite Nat2Z.id. repeat split; try lia; auto.
  - exfalso. apply getBestPosition_None in Hb.
    apply getPossiblePositions_nil in Hb. apply Hb. apply reachable_range. exact Hrange.
Qed.


(** X6. Whenever the resolver consults the mapper (manual mode, or a note
    without a complete fingering) for a pitch inside the instrument's
    range, the resolved note carries a pair that is on the board and sounds
    the note's pitch: string in 0..5, fret in 0..22, and open pitch of the
    string plus fret equal to the pitch, whatever the payload said. *)
Theorem resolveNote_plays_pitch (isAutoHand : bool) (centerFret manualCenterFret : Z)
    (n : Note) :
  isAutoHand = false \/ explicitFingering n = None ->
  40 <= pitch n <= 86 ->
  exists s f openPitch,
    explicitFingering (resolveNote isAutoHand centerFret manualCenterFret n) = Some (s, f)
    /\ 0 <= s <= 5 /\ 0 <= f <= 22
    /\ GuitarUtils.TUNING !! Z.to_nat s = Some openPitch
    /\ openPitch + f = pitch n.
Proof. apply resolveNote_on_board. Qed.

Lemma resolveNote_plays_pitch_witness :
  exists s f openPitch,
    explicitFingering (resolveNote false 3 9 Scenario.c4) = Some (s, f)
    /\ 0 <= s <= 5 /\ 0 <= f <= 22
    /\ GuitarUtils.TUNING !! Z.to_nat s = Some openPitch
    /\ openPitch + f = pitch Scenario.c4.
Proof.
  apply (resolveNote_plays_pitch false 3 9 Scenario.c4); [left; reflexivity | simpl; lia].
Defined.

Lemma handRun_snoc (s : HandState) (events : list HandEvent) (e : HandEvent) :
  handRun s (events ++ [e]) = handStep (handRun s events) e.
Proof. unfold handRun. rewrite fold_left_app. reflexivity. Qed.

(** X7. Hand controls.  Starting from the initial state and with slider
    values in the slider's range 0..17, the manual center fret stays in
    0..17; it changes only when the slider moves, so it survives any
    switching between automatic and manual mode; and right after the slider
    moved to [v] the mode is manual and the center fret shown for a loaded
    payload is [v] at every playback time. *)
Theorem hand_controls (events : list HandEvent) :
  List.Forall sliderValue events ->
  0 <= manualCenterFret (handRun initialHand events) <= 17
  /\ (forall s : HandState,
        (forall v, ~ In (SliderChanged v) events) ->
        manualCenterFret (handRun s events) = manualCenterFret s)
  /\ (forall (v : Z) (r : AnalysisResult) (t : Q),
        let s' := handRun initialHand (events ++ [SliderChanged v]) in
        isAutoHand s' = false
        /\ currentCenterFret (Some r) t (isAutoHand s') (manualCenterFret s') = v).
Proof.
  intros Hall. split; [|split].
  - assert (G : forall s, 0 <= manualCenterFret s <= 17 ->
                0 <= manualCenterFret (handRun s events) <= 17).
    { induction events as [|e events IH]; intros s Hs; [exact Hs|].
      apply List.Forall_cons_iff in Hall. destruct Hall as [He Hall].
      unfold handRun. simpl. apply (IH Hall).
      destruct e as [ | v | | ]; simpl in *; try exact Hs; try exact He.
      destruct (isAutoHand s); exact Hs. }
    apply G. simpl. lia.
  - clear Hall. induction events as [|e events IH]; intros s Hno; [reflexivity|].
    unfold handRun. simpl. fold (handRun (handStep s e) events).
    rewrite IH.
    + destruct e as [ | v | | ]; simpl; try reflexivity.
      * exfalso. apply (Hno v). left. reflexivity.
      * destruct (isAutoHand s); reflexivity.
    + intros v Hin. apply (Hno v). right. exact Hin.
  - intros v r t s'. subst s'. rewrite handRun_snoc. simpl.
    destruct (isAutoHand (handRun initialHand events)); split; reflexivity.
Qed.

Lemma hand_controls_witness :
  0 <= manualCenterFret
         (handRun initialHand [SliderChanged 7; ResumeClicked; ToggleClicked]) <= 17.
Proof.
  apply (hand_controls [SliderChanged 7; ResumeClicked; ToggleClicked]).
  repeat constructor; simpl; lia.
Defined.


End AppControls.

(* ===================================================================== *)
(** ** More about the Fretboard component *)
(* ===================================================================== *)

Section FretboardPositions.
Import Fretboard.

(** One iteration of the loop of [currentActivePositions]. *)
Lemma currentActivePositions_snoc (ns : list App.Note) (n : App.Note) (cf : Z) (fl : bool) :
  currentActivePositions (ns ++ [n]) cf fl
  = match entryOf cf fl n with
    | Some (key, e) => <[key := e]> (currentActivePositions ns cf fl)
    | None => currentActivePositions ns cf fl
    end.
Proof. unfold currentActivePositions. rewrite fold_left_app. reflexivity. Qed.

(** X9. When several notes map to one key the last one wins: the entry
    stored under a key is the one written by the last note of the list
    whose iteration writes that key, and a key is empty iff no note writes
    it. *)
Theorem currentActivePositions_last_wins (ns : list App.Note) (cf : Z) (fl : bool)
    (k : Z * Z) (e : Rendered) :
  currentActivePositions ns cf fl !! k = Some e
  <-> exists (before : list App.Note) (n : App.Note) (after : list App.Note),
        ns = before ++ n :: after
        /\ entryOf cf fl n = Some (k, e)
        /\ forall n' e', In n' after -> entryOf cf fl n' <> Some (k, e').
Proof.
  revert e. induction ns as [|x ns IH] using rev_ind; intros e.
  - split.
    + unfold currentActivePositions. simpl. rewrite lookup_empty. discriminate.
    + intros (before & n & after & Heq & _). destruct before; discriminate.
  - rewrite currentActivePositions_snoc. split.
    + intros Hk. destruct (entryOf cf fl x) as [[k' e']|] eqn:Ex.
      * destruct (decide (k' = k)) as [->|Hne].
        -- rewrite lookup_insert_eq in Hk. inversion Hk; subst.
           exists ns, x, []. split; [reflexivity|]. split; [exact Ex|]. intros ? ? [].
        -- rewrite lookup_insert_ne in Hk by exact Hne.
           apply IH in Hk. destruct Hk as (before & n & after & -> & Hn & Hafter).
           exists before, n, (after ++ [x]). split; [rewrite <- app_assoc; reflexivity|].
           split; [exact Hn|]. intros n' e'' Hin. apply in_app_or in Hin.
           destruct Hin as [Hin | [<- | []]]; [apply Hafter; exact Hin|].
           rewrite Ex. intros H. inversion H. congruence.
      * apply IH in Hk. destruct Hk as (before & n & after & -> & Hn & Hafter).
        exists before, n, (after ++ [x]). split; [rewrite <- app_assoc; reflexivity|].
        split; [exact Hn|]. intros n' e'' Hin. apply in_app_or in Hin.
        destruct Hin as [Hin | [<- | []]]; [apply Hafter; exact Hin|].
        rewrite Ex. discriminate.
    + intros (before & n & after & Heq & Hn & Hafter).
      destruct after as [|a after _] using rev_ind.
      * apply app_inj_tail in Heq. destruct Heq as [-> ->].
        rewrite Hn. apply lookup_insert_eq.
      * rewrite app_comm_cons, app_assoc in Heq.
        apply app_inj_tail in Heq. destruct Heq as [-> ->].
        assert (Hprev : currentActivePositions (before ++ n :: after) cf fl !! k = Some e).
        { apply IH. exists before, n, after. split; [reflexivity|]. split; [exact Hn|].
          intros n' e' Hin. apply Hafter. apply in_or_app. left. exact Hin. }
        destruct (entryOf cf fl a) as [[k' e']|] eqn:Ea; [|exact Hprev].
        destruct (decide (k' = k)) as [->|Hne].
        -- exfalso. apply (Hafter a e'); [apply in_or_app; right; left; reflexivity | exact Ea].
        -- rewrite lookup_insert_ne by exact Hne. exact Hprev.
Qed.

Lemma currentActivePositions_ext (ns : list App.Note) (cf cf' : Z) (fl fl' : bool) :
  (forall n, In n ns -> entryOf cf fl n = entryOf cf' fl' n) ->
  currentActivePositions ns cf fl = currentActivePositions ns cf' fl'.
Proof.
  induction ns as [|x ns IH] using rev_ind; intros H; [reflexivity|].
  rewrite !currentActivePositions_snoc.
  rewrite <- (H x) by (apply in_or_app; right; left; reflexivity).
  rewrite IH; [reflexivity|]. intros n Hn. apply H. apply in_or_app. left. exact Hn.
Qed.

(** For a note with both fields, or one the mapper cannot place, the
    iteration does not depend on the center fret or on the reach filter. *)
Lemma entryOf_placed_indep (cf cf' : Z) (fl fl' : bool) (m : App.Note) :
  (exists s f, App.explicitFingering m = Some (s, f))
  \/ GuitarUtils.getPossiblePositions (App.pitch m) = [] ->
  entryOf cf fl m = entryOf cf' fl' m.
Proof.
  intros Hfields. unfold entryOf, positionOf, shouldRender.
  unfold App.explicitFingering in Hfields.
  destruct (App.string m) as [s|]; destruct (App.fret m) as [f|]; simpl; try reflexivity.
  all: destruct Hfields as [(s' & f' & Hx) | Hnil]; [discriminate|].
  all: rewrite (proj2 (getBestPosition_None _ cf) Hnil),
               (proj2 (getBestPosition_None _ cf') Hnil); reflexivity.
Qed.

(** X10. For the notes App hands over, the Fretboard's own fallback never
    decides anything: every stored key is the (string, fret) pair the note
    already carries, every note with a pair has its key occupied, each
    stored entry is drawn and in fret mode labelled with the fret of its
    key, and neither the [centerFret] nor the [filterOutOfRange] prop
    changes the stored positions. *)
Theorem fretboard_shows_resolved_pairs (r : App.AnalysisResult) (t : Q) (isAutoHand : bool)
    (manualCenterFret centerFret centerFret' : Z) (filterOutOfRange filterOutOfRange' : bool) :
  let activeNotes := App.activeNotes (Some r) t isAutoHand manualCenterFret in
  currentActivePositions activeNotes centerFret filterOutOfRange
  = currentActivePositions activeNotes centerFret' filterOutOfRange'
  /\ (forall (k : Z * Z) (e : Rendered),
        currentActivePositions activeNotes centerFret filterOutOfRange !! k = Some e ->
        In (note e) activeNotes
        /\ App.explicitFingering (note e) = Some k
        /\ drawsMarker e = true
        /\ markerLabel App.LabelFret e = Some (FretText (Some k.2)))
  /\ (forall (m : App.Note) (s f : Z),
        In m activeNotes -> App.explicitFingering m = Some (s, f) ->
        is_Some (currentActivePositions activeNotes centerFret filterOutOfRange !! (s, f))).
Proof.
  intros activeNotes.
  assert (Hres : forall m, In m activeNotes ->
            (exists s f, App.explicitFingering m = Some (s, f))
            \/ GuitarUtils.getPossiblePositions (App.pitch m) = []).
  { intros m Hm. unfold activeNotes, App.activeNotes in Hm. apply in_map_iff in Hm.
    destruct Hm as (n & <- & _). apply resolveNote_fields. }
  split; [|split].
  - apply currentActivePositions_ext. intros n Hn.
    apply entryOf_placed_indep. apply Hres. exact Hn.
  - intros k e Hk. apply currentActivePositions_origin in Hk.
    destruct Hk as (m & Hm & He).
    pose proof (entryOf_fresh _ _ _ _ _ He) as ->. simpl.
    destruct (entryOf_placed _ _ _ _ _ (Hres m Hm) He) as [Hx Hd].
    split; [exact Hm|]. split; [exact Hx|]. split; [exact Hd|].
    unfold markerLabel. simpl. unfold App.explicitFingering in Hx.
    destruct (App.string m); [|discriminate]. destruct (App.fret m); [|discriminate].
    inversion Hx. reflexivity.
  - intros m s f Hm Hx.
    apply (currentActivePositions_written _ _ _ m _
             {| note := m; isFading := false; fadeStartTime := None |} Hm).
    unfold entryOf, positionOf, shouldRender. unfold App.explicitFingering in Hx.
    destruct (App.string m); [|discriminate]. destruct (App.fret m); [|discriminate].
    inversion Hx; subst. reflexivity.
Qed.

Lemma resolveNote_keeps_pitch (isAutoHand : bool) (cf manual : Z) (n : App.Note) :
  App.pitch (App.resolveNote isAutoHand cf manual n) = App.pitch n.
Proof.
  unfold App.resolveNote.
  destruct (negb isAutoHand || App.isUndefined (App.string n) || App.isUndefined (App.fret n));
    [destruct (GuitarUtils.getBestPosition _ _)|]; reflexivity.
Qed.

(** X18. In manual mode every marker of a pitch inside the instrument's
    range (MIDI 40..86) lies on the board at a position that sounds that
    pitch: its key has string in 0..5 and fret in 0..22, and the open pitch
    of the string plus the fret is the pitch, whatever fingering the payload
    carried. *)
Theorem manual_markers_on_board (r : App.AnalysisResult) (t : Q) (manualCenterFret : Z)
    (centerFret : Z) (filterOutOfRange : bool) (k : Z * Z) (e : Rendered) :
  currentActivePositions (App.activeNotes (Some r) t false manualCenterFret)
    centerFret filterOutOfRange !! k = Some e ->
  40 <= App.pitch (note e) <= 86 ->
  0 <= k.1 <= 5 /\ 0 <= k.2 <= 22
  /\ exists openPitch,
       GuitarUtils.TUNING !! Z.to_nat k.1 = Some openPitch
       /\ openPitch + k.2 = App.pitch (note e).
Proof.
  intros Hk Hrange. apply currentActivePositions_origin in Hk.
  destruct Hk as (m & Hm & He).
  pose proof (entryOf_fresh _ _ _ _ _ He) as ->. simpl in Hrange |- *.
  unfold App.activeNotes in Hm. apply in_map_iff in Hm. destruct Hm as (n & <- & _).
  destruct (entryOf_placed _ _ _ _ _ (resolveNote_fields _ _ _ _) He) as [Hx _].
  rewrite resolveNote_keeps_pitch in Hrange |- *.
  destruct (resolveNote_on_board false
              (App.currentCenterFret (Some r) t false manualCenterFret)
              manualCenterFret n (or_introl eq_refl) Hrange)
    as (s & f & o & Hx' & Hs & Hf & Ho & Hsum).
  rewrite Hx in Hx'. inversion Hx'; subst. simpl.
  split; [exact Hs|]. split; [exact Hf|]. exists o. split; [exact Ho | exact Hsum].
Qed.

Lemma manual_markers_on_board_witness :
  exists k e,
    currentActivePositions (App.activeNotes (Some Scenario.payload) (1 # 2) false 9)
      9 false !! k = Some e
    /\ 0 <= k.1 <= 5 /\ 0 <= k.2 <= 22.
Proof.
  exists (2, 10), {| note := App.resolveNote false 9 9 Scenario.c4;
                     isFading := false; fadeStartTime := None |}.
  assert (Hk : currentActivePositions
                 (App.activeNotes (Some Scenario.payload) (1 # 2) false 9) 9 false
                 !! (2, 10)
               = Some {| note := App.resolveNote false 9 9 Scenario.c4;
                         isFading := false; fadeStartTime := None |})
    by (vm_compute; reflexivity).
  split; [exact Hk|].
  destruct (manual_markers_on_board _ _ _ _ _ _ _ Hk ltac:(vm_compute; split; discriminate))
    as (Hs & Hf & _).
  split; [exact Hs | exact Hf].
Defined.

End FretboardPositions.

Section FretboardTrail.
Import Fretboard.

Lemma reconcileKey_not_elapsed (p a : option Rendered) (markTime now : Z) (e : Rendered) :
  reconcileKey p a markTime now = Some e -> fadeElapsed now e = false.
Proof.
  unfold reconcileKey.
  destruct a as [a|]; [|destruct p as [p|]]; try discriminate.
  - destruct (fadeElapsed now (keepActive a)) eqn:E; intros H; inversion H; subst. exact E.
  - destruct (fadeElapsed now (if isFading p then p else startFading p markTime)) eqn:E;
      intros H; inversion H; subst. exact E.
Qed.

(** An entry left by a reconciliation under a key outside the active
    positions is fading. *)
Lemma reconcileKey_inactive_fading (p : option Rendered) (markTime now : Z) (e : Rendered) :
  reconcileKey p None markTime now = Some e -> isFading e = true /\ is_Some p.
Proof.
  unfold reconcileKey. destruct p as [p|]; [|discriminate].
  destruct (isFading p) eqn:Hf.
  - destruct (fadeElapsed now p); intros H; inversion H; subst. eauto.
  - destruct (fadeElapsed now (startFading p markTime)); intros H; inversion H; subst.
    eauto.
Qed.

(** X11. Running the reconciliation again on unchanged active positions,
    at any later clock readings, does exactly what the sweep does on the
    map, and at the same reading it changes nothing: the reconciliation is
    idempotent. *)
Theorem reconcile_again_is_sweep (prev active : gmap (Z * Z) Rendered)
    (markTime now markTime' now' : Z) :
  reconcile (reconcile prev active markTime now) active markTime' now'
  = (sweep (reconcile prev active markTime now) now').1
  /\ reconcile (reconcile prev active markTime now) active markTime' now
     = reconcile prev active markTime now.
Proof.
  assert (Hkey : forall t k,
            reconcile (reconcile prev active markTime now) active markTime' t !! k
            = match reconcile prev active markTime now !! k with
              | Some r => if fadeElapsed t r then None else Some r
              | None => None
              end).
  { intros t k. rewrite (reconcile_lookup (reconcile prev active markTime now)).
    destruct (reconcile prev active markTime now !! k) as [e|] eqn:He.
    - rewrite reconcile_lookup in He.
      destruct (active !! k) as [a|] eqn:Ha.
      + unfold reconcileKey in He |- *. simpl in He. inversion He; subst. reflexivity.
      + destruct (reconcileKey_inactive_fading _ _ _ _ He) as [Hf _].
        unfold reconcileKey. rewrite Hf. reflexivity.
    - rewrite reconcile_lookup in He.
      destruct (active !! k) as [a|] eqn:Ha; [|reflexivity].
      unfold reconcileKey in He. simpl in He. discriminate. }
  split.
  - apply map_eq. intros k. rewrite Hkey, sweep_lookup. reflexivity.
  - apply map_eq. intros k. rewrite Hkey.
    destruct (reconcile prev active markTime now !! k) as [e|] eqn:He; [|reflexivity].
    rewrite reconcile_lookup in He. rewrite (reconcileKey_not_elapsed _ _ _ _ _ He).
    reflexivity.
Qed.

(** X12. After a reconciliation the entries that are not fading are exactly
    those of the active positions, all of which are present; every other
    entry is fading and was in the map before: the reconciliation invents
    no key. *)
Theorem reconcile_partition (prev active : gmap (Z * Z) Rendered) (markTime now : Z) :
  (forall k a, active !! k = Some a ->
     reconcile prev active markTime now !! k = Some (keepActive a))
  /\ (forall k e, reconcile prev active markTime now !! k = Some e ->
        (isFading e = false <-> is_Some (active !! k)))
  /\ (forall k e, reconcile prev active markTime now !! k = Some e ->
        active !! k = None -> isFading e = true /\ is_Some (prev !! k)).
Proof.
  split; [|split].
  - intros k a Ha. rewrite reconcile_lookup, Ha. reflexivity.
  - intros k e. rewrite reconcile_lookup. destruct (active !! k) as [a|] eqn:Ha.
    + unfold reconcileKey. simpl. intros H. inversion H; subst. simpl.
      split; [eauto | reflexivity].
    + intros H. destruct (reconcileKey_inactive_fading _ _ _ _ H) as [Hf _].
      rewrite Hf. split; [discriminate | intros [x Hx]; discriminate].
  - intros k e He Ha. rewrite reconcile_lookup, Ha in He.
    apply (reconcileKey_inactive_fading _ _ _ _ He).
Qed.

Lemma existsb_none {A : Type} (f : A -> bool) (xs : list A) :
  (forall x, In x xs -> f x = false) -> existsb f xs = false.
Proof.
  induction xs as [|x xs IH]; intros H; simpl; [reflexivity|].
  rewrite (H x) by (left; reflexivity). apply IH. intros y Hy. apply H. right. exact Hy.
Qed.

(** X13. The sweep only ever removes entries whose fade has run out: its
    result is a submap of the map it is given, entries that are not fading
    or not yet due stay as they are, it reports a change exactly when some
    entry was due, an unchanged map is returned as it was, and a second
    sweep at the same reading finds nothing to do. *)
Theorem sweep_removes_only_elapsed (prev : gmap (Z * Z) Rendered) (now : Z) :
  (sweep prev now).1 ⊆ prev
  /\ (forall k r, prev !! k = Some r -> fadeElapsed now r = false ->
        (sweep prev now).1 !! k = Some r)
  /\ (forall k r, prev !! k = Some r -> isFading r = false ->
        (sweep prev now).1 !! k = Some r)
  /\ ((sweep prev now).2 = true
      <-> exists k r, prev !! k = Some r /\ fadeElapsed now r = true)
  /\ ((sweep prev now).2 = false <-> (sweep prev now).1 = prev)
  /\ sweep (sweep prev now).1 now = ((sweep prev now).1, false).
Proof.
  assert (Hchanged : (sweep prev now).2 = true
                     <-> exists k r, prev !! k = Some r /\ fadeElapsed now r = true).
  { unfold sweep. simpl. rewrite existsb_exists. split.
    - intros ([k r] & Hin & He). exists k, r. split; [|exact He].
      apply elem_of_map_to_list, list_elem_of_In. exact Hin.
    - intros (k & r & Hk & He). exists (k, r). split; [|exact He].
      apply list_elem_of_In, elem_of_map_to_list. exact Hk. }
  split; [|split; [|split; [|split; [exact Hchanged|split]]]].
  - apply map_subseteq_spec. intros k r. rewrite sweep_lookup.
    destruct (prev !! k) as [p|]; [|discriminate].
    destruct (fadeElapsed now p); [discriminate | auto].
  - intros k r Hk He. rewrite sweep_lookup, Hk, He. reflexivity.
  - intros k r Hk Hf. rewrite sweep_lookup, Hk. unfold fadeElapsed. rewrite Hf. reflexivity.
  - split; [apply sweep_unchanged|].
    intros Heq. destruct (sweep prev now).2 eqn:E; [|reflexivity].
    destruct (proj1 Hchanged eq_refl) as (k & r & Hk & He).
    assert (Hl : (sweep prev now).1 !! k = None) by (rewrite sweep_lookup, Hk, He; reflexivity).
    rewrite Heq, Hk in Hl. discriminate.
  - set (next := (sweep prev now).1).
    assert (Hnone : existsb (fun kr => fadeElapsed now kr.2) (map_to_list next) = false).
    { apply existsb_none. intros [k r] Hin. simpl.
      apply list_elem_of_In, elem_of_map_to_list in Hin.
      unfold next in Hin. rewrite sweep_lookup in Hin.
      destruct (prev !! k) as [p|]; [|discriminate].
      destruct (fadeElapsed now p) eqn:E; [discriminate|]. inversion Hin; subst. exact E. }
    unfold sweep at 1. rewrite Hnone. reflexivity.
Qed.

Lemma step_trailBounded (c c1 : Component) (e : Event) :
  sweepScheduled c -> trailBounded c -> step c e = Some c1 -> trailBounded c1.
Proof.
  intros Hsched Hb Hstep k r1 Hk1.
  destruct e as [d | ns cf fl | ].
  - apply step_Wait in Hstep. destruct Hstep as (Hd & _ & Hr & Hi & Hc).
    rewrite Hr in Hk1. specialize (Hb k r1 Hk1). rewrite Hi, Hc.
    destruct (isFading r1); [|exact Hb].
    destruct Hb as (t0 & Hs & Ht & Hf). exists t0. split; [exact Hs|]. split; [lia | exact Hf].
  - apply step_Props in Hstep. destruct Hstep as (Hr & Hi & Hc).
    rewrite Hc. pose proof Hk1 as Hk. rewrite Hr, reconcile_lookup in Hk.
    pose proof (reconcileKey_not_elapsed _ _ _ _ _ Hk) as Hne.
    destruct (currentActivePositions ns cf fl !! k) as [a|] eqn:Ha.
    + unfold reconcileKey in Hk. simpl in Hk. inversion Hk; subst. simpl.
      apply (currentActivePositions_fresh _ _ _ _ _ Ha).
    + destruct (reconcileKey_inactive_fading _ _ _ _ Hk) as [Hf [p Hp]].
      rewrite Hf.
      assert (Hhas : hasFading (renderedNotes c1) = true) by (apply hasFading_true; eauto).
      assert (Hint : interval c1 = Some (clock c + 100))
        by (rewrite Hi; unfold sweepEffect; rewrite Hhas; reflexivity).
      rewrite Hp in Hk. unfold reconcileKey in Hk. specialize (Hb k p Hp).
      destruct (isFading p) eqn:Hfp.
      * destruct (fadeElapsed (clock c) p) eqn:E; inversion Hk; subst.
        destruct Hb as (t0 & Hs & Ht & _). exists t0. split; [exact Hs|]. split; [exact Ht|].
        exists (clock c + 100). split; [exact Hint|].
        rewrite (fadeElapsed_fading _ _ _ Hfp Hs) in E. apply Z.ltb_ge in E. lia.
      * destruct (fadeElapsed (clock c) (startFading p (clock c))); inversion Hk; subst.
        exists (clock c). simpl. split; [reflexivity|]. split; [lia|].
        exists (clock c + 100). split; [exact Hint | lia].
  - apply step_IntervalFires in Hstep. destruct Hstep as (Hfire & Hr & Hi & Hc).
    rewrite Hc. pose proof Hk1 as Hk. rewrite Hr, sweep_lookup in Hk.
    destruct (renderedNotes c !! k) as [p|] eqn:Hp; [|discriminate].
    destruct (fadeElapsed (clock c) p) eqn:E; inversion Hk; subst.
    specialize (Hb k r1 Hp). destruct (isFading r1) eqn:Hf; [|exact Hb].
    destruct Hb as (t0 & Hs & Ht & _). exists t0. split; [exact Hs|]. split; [exact Ht|].
    assert (Hhas : hasFading (renderedNotes c1) = true) by (apply hasFading_true; eauto).
    exists (clock c + 100). split.
    + rewrite Hi. destruct (sweep (renderedNotes c) (clock c)).2; [|reflexivity].
      unfold sweepEffect. rewrite Hhas. reflexivity.
    + rewrite (fadeElapsed_fading _ _ _ Hf Hs) in E. apply Z.ltb_ge in E. lia.
Qed.

Lemma run_trailBounded (events : list Event) (c c' : Component) :
  sweepScheduled c -> trailBounded c -> run c events = Some c' ->
  sweepScheduled c' /\ trailBounded c' /\ clock c <= clock c'.
Proof.
  revert c. induction events as [|e events IH]; intros c Hs Hb Hrun.
  - simpl in Hrun. inversion Hrun; subst. split; [exact Hs|]. split; [exact Hb | lia].
  - cbn [run] in Hrun. destruct (step c e) as [c1|] eqn:Hstep; [|discriminate].
    destruct (IH c1 (step_sweepScheduled _ _ _ Hs Hstep)
                (step_trailBounded _ _ _ Hs Hb Hstep) Hrun) as (Hs' & Hb' & Hc).
    split; [exact Hs'|]. split; [exact Hb'|].
    assert (clock c <= clock c1); [|lia].
    destruct e as [d | ns cf fl | ].
    + apply step_Wait in Hstep. lia.
    + apply step_Props in Hstep. lia.
    + apply step_IntervalFires in Hstep. lia.
Qed.

(** X14. In every state the mounted component can reach, whatever props
    arrive and whenever: the sweep interval is set iff some entry is fading,
    every fading entry carries the time its fade started and that time is
    at most 600 ms back, and every entry that is not fading carries no time
    stamp.  No entry outlives its fade by more than one sweep period. *)
Theorem trail_age_bounded (t : Z) (events : list Event) (c : Component) :
  run (mount t) events = Some c ->
  t <= clock c
  /\ (is_Some (interval c) <-> hasFading (renderedNotes c) = true)
  /\ forall (k : Z * Z) (r : Rendered),
       renderedNotes c !! k = Some r ->
       (isFading r = true ->
        exists t0, fadeStartTime r = Some t0 /\ t0 <= clock c <= t0 + 600)
       /\ (isFading r = false -> fadeStartTime r = None).
Proof.
  intros Hrun.
  assert (Hs0 : sweepScheduled (mount t)).
  { unfold sweepScheduled, mount. simpl. split; [|discriminate].
    split; [intros [x Hx]; discriminate | intros H; vm_compute in H; discriminate]. }
  assert (Hb0 : trailBounded (mount t)).
  { intros k r Hk. unfold mount in Hk. simpl in Hk. rewrite lookup_empty in Hk. discriminate. }
  destruct (run_trailBounded events (mount t) c Hs0 Hb0 Hrun) as (Hs & Hb & Hc).
  split; [exact Hc|]. split; [exact (proj1 Hs)|].
  intros k r Hk. specialize (Hb k r Hk). split; intros Hf; rewrite Hf in Hb.
  - destruct Hb as (t0 & Hst & Ht & f & Hi & Hle). exists t0. split; [exact Hst|].
    pose proof (proj2 Hs f Hi). lia.
  - exact Hb.
Qed.

Lemma trail_age_bounded_witness :
  exists c,
    run (mount 1000)
      (Props Scenario.playing 3 false :: Wait 250 :: Props [] 3 false
         :: Scenario.sweepRounds 3) = Some c
    /\ forall (k : Z * Z) (r : Rendered),
         renderedNotes c !! k = Some r ->
         (isFading r = true ->
          exists t0, fadeStartTime r = Some t0 /\ t0 <= clock c <= t0 + 600)
         /\ (isFading r = false -> fadeStartTime r = None).
Proof.
  destruct (run (mount 1000)
              (Props Scenario.playing 3 false :: Wait 250 :: Props [] 3 false
                 :: Scenario.sweepRounds 3)) as [c|] eqn:Hrun;
    [|vm_compute in Hrun; discriminate].
  exists c. split; [reflexivity|].
  exact (proj2 (proj2 (trail_age_bounded 1000 _ c Hrun))).
Defined.

End FretboardTrail.

Section FretboardMarkers.
Import Fretboard.

(** X15. A marker sits on one of the six drawn string lines exactly when
    its data string is in 0..5; the high E string (5) is the top line and
    the low E string (0) the bottom one, different strings give different
    rows, and such a marker lies inside the drawing. *)
Theorem marker_on_string_line (s : Z) :
  ((exists i, 0 <= i < GuitarUtils.NUM_STRINGS /\ markerY s = stringY i) <-> 0 <= s <= 5)
  /\ markerY 5 = stringY 0
  /\ markerY 0 = stringY (GuitarUtils.NUM_STRINGS - 1)
  /\ (forall s', markerY s = markerY s' -> s = s')
  /\ (0 <= s <= 5 -> topMargin < markerY s < svgHeight).
Proof.
  unfold markerY, stringY, svgHeight, visualBoardHeight, topMargin, edgeMargin,
    stringSpacing, GuitarUtils.NUM_STRINGS.
  split; [|split; [|split; [|split]]]; try lia.
  split.
  - intros (i & Hi & Heq). lia.
  - intros Hs. exists (5 - s). lia.
Qed.

Lemma Qabs_zero : Qabs 0 = 0%Q.
Proof. reflexivity. Qed.

(** X16. A marker is drawn as bending (yellow, radius 11) exactly when the
    absolute value of its bend exceeds 0.2: the 0.05 dead band before the
    test never changes the outcome.  A fading marker whose note has no
    [bend_value] is never drawn as bending, whatever the live bend. *)
Theorem isBending_threshold (r : Rendered) (currentBend : Q) :
  (isBending r currentBend = true <-> (2 # 10 < Qabs (dynamicBend r currentBend))%Q)
  /\ (markerRadius r currentBend = if isBending r currentBend then 11 else 9)
  /\ (isFading r = true -> App.bend_value (note r) = None ->
      isBending r currentBend = false /\ markerRadius r currentBend = 9).
Proof.
  assert (Hmain : isBending r currentBend = true
                  <-> (2 # 10 < Qabs (dynamicBend r currentBend))%Q).
  { unfold isBending, bendVal. cbv zeta. rewrite Qltb_lt.
    destruct (App.Qltb (5 # 100) (Qabs (dynamicBend r currentBend))) eqn:E; [tauto|].
    split.
    - rewrite Qabs_zero. intros H. exfalso. revert H. unfold Qlt. simpl. lia.
    - intros H. exfalso. apply not_true_iff_false in E. apply E. apply Qltb_lt.
      apply (Qlt_trans _ (2 # 10)); [unfold Qlt; simpl; lia | exact H]. }
  split; [exact Hmain|]. split; [reflexivity|].
  intros Hf Hb.
  assert (Hno : isBending r currentBend = false).
  { apply not_true_iff_false. rewrite Hmain. unfold dynamicBend. rewrite Hf, Hb. simpl.
    unfold Qlt. simpl. lia. }
  split; [exact Hno|]. unfold markerRadius. rewrite Hno. reflexivity.
Qed.

Lemma isBending_threshold_witness :
  isBending {| note := Scenario.lowB; isFading := true; fadeStartTime := Some 1000 |} 1
  = false.
Proof.
  exact (proj1 (proj2 (proj2 (isBending_threshold
           {| note := Scenario.lowB; isFading := true; fadeStartTime := Some 1000 |} 1))
           eq_refl eq_refl)).
Defined.

End FretboardMarkers.

(* ===================================================================== *)
(** ** Facts about the AudioRecorder component *)
(* ===================================================================== *)

Section AudioRecorderFacts.
Import AudioRecorder.
Import String.StringSyntax.
Local Open Scope string_scope.

(** X17. Whatever types the browser supports, the recorder picks the first
    supported candidate in list order (none only if none is supported); the
    file extension agrees with the picked type (mp4 for audio/mp4, ogg for
    audio/ogg, webm for both webm types and when nothing is supported); the
    extension 'wav' never occurs; and the blob type is audio/webm when
    nothing was picked, else the picked type. *)
Theorem recording_container (isTypeSupported : String.string -> bool) :
  let picked := selectedMimeType isTypeSupported in
  (picked = none <-> forall type, In type mimeTypes -> isTypeSupported type = false)
  /\ (picked <> none ->
      exists earlier later,
        mimeTypes = earlier ++ picked :: later
        /\ isTypeSupported picked = true
        /\ forall type, In type earlier -> isTypeSupported type = false)
  /\ fileExtension picked <> extWav
  /\ (fileExtension picked = extMp4 <-> picked = mp4)
  /\ (fileExtension picked = extOgg <-> picked = ogg)
  /\ (fileExtension picked = extWebm <-> picked = webmOpus \/ picked = webm \/ picked = none)
  /\ blobType picked = (if String.eqb picked none then webm else picked).
Proof.
  unfold selectedMimeType, mimeTypes. cbn [firstSupported].
  destruct (isTypeSupported "audio/webm;codecs=opus") eqn:E1;
    [|destruct (isTypeSupported "audio/webm") eqn:E2;
      [|destruct (isTypeSupported "audio/mp4") eqn:E3;
        [|destruct (isTypeSupported "audio/ogg") eqn:E4]]];
    cbv zeta.
  all: split; [split; [intros H; try discriminate H;
                       intros type [<- | [<- | [<- | [<- | []]]]]; assumption
                      | intros H; try reflexivity;
                        first [ rewrite (H _ (or_introl eq_refl)) in E1; discriminate
                              | rewrite (H _ (or_intror (or_introl eq_refl))) in E2; discriminate
                              | rewrite (H _ (or_intror (or_intror (or_introl eq_refl)))) in E3;
                                discriminate
                              | rewrite (H _ (or_intror (or_intror (or_intror (or_introl eq_refl)))))
                                  in E4; discriminate ]]|].
  all: split; [intros Hne|].
  1: { exists [], [webm; mp4; ogg]. split; [reflexivity|]. split; [exact E1|]. intros ? []. }
  2: { exists [webmOpus], [mp4; ogg]. split; [reflexivity|]. split; [exact E2|].
       intros ? [<- | []]. exact E1. }
  3: { exists [webmOpus; webm], [ogg]. split; [reflexivity|]. split; [exact E3|].
       intros ? [<- | [<- | []]]; assumption. }
  4: { exists [webmOpus; webm; mp4], []. split; [reflexivity|]. split; [exact E4|].
       intros ? [<- | [<- | [<- | []]]]; assumption. }
  5: { exfalso. apply Hne. reflexivity. }
  all: vm_compute; repeat split; try discriminate; try (intros H; discriminate H);
    try (intros [H | [H | H]]; discriminate H); try reflexivity; auto.
Qed.

End AudioRecorderFacts.
